(** * Card-game rule engines: Blackjack and Golf Solitaire

    A shallow embedding of [src/Blackjack/blackjack.py] and
    [src/Solitaire/solitaire.py].  Python integers are [Z], Python lists are
    lists in the same order (index 0 first, [l[-1]] is the last element,
    [append] adds at the end), a raised exception is the [Raise] case of
    [result]. *)

From Stdlib Require Import ZArith Lia.
From Equations Require Import Equations.
From stdpp Require Import base option list gmap strings.

Local Open Scope Z_scope.

(** ** Exceptions *)

Inductive exn : Type :=
| KeyError      (* a dictionary has no such key *)
| IndexError    (* a list index is out of range *)
| EOFError      (* [input()] at the end of the input *)
| SupplyExhausted.  (* a card is asked of a deck that has none left *)

Inductive result (A : Type) : Type :=
| Raise (e : exn)
| Return (a : A).
Arguments Raise {A} e.
Arguments Return {A} a.

#[global] Instance result_bind : MBind result :=
  fun A B (k : A -> result B) (r : result A) =>
    match r with
    | Raise e => Raise e
    | Return a => k a
    end.

(** * Blackjack *)

Module Blackjack.

(** [class Card]: value, suit and code, all strings. *)
Record Card : Type := mkCard { value : string; suit : string; code : string }.

(** [class Hand]: [score], [cards] and [aces], the number of aces still
    counted as 11. *)
Record Hand : Type := mkHand { score : Z; cards : list Card; aces : Z }.

(** [Hand.__init__] *)
Definition Hand_init : Hand := {| score := 0; cards := []; aces := 0 |}.

(** The dictionary [card_values] of [Hand.add_card]. *)
Definition card_values : gmap string Z :=
  list_to_map
    [("2", 2); ("3", 3); ("4", 4); ("5", 5); ("6", 6); ("7", 7); ("8", 8);
     ("9", 9); ("10", 10); ("JACK", 10); ("QUEEN", 10); ("KING", 10);
     ("ACE", 11)]%string.

(** The loop [while self.score > 21 and self.aces > 0] of [Hand.add_card];
    every turn lowers [aces] by one, and a turn needs [aces > 0]. *)
Equations? soften (s a : Z) : Z * Z by wf (Z.to_nat a) lt :=
  soften s a with decide (21 < s /\ 0 < a) := {
    | left Hcond => soften (s - 10) (a - 1)
    | right _ => (s, a) }.
Proof. lia. Qed.

(** [Hand.add_card].  A card whose value is not a key of [card_values]
    raises [KeyError] at the dictionary access, before the hand has changed
    (["ACE"] is a key). *)
Definition add_card (card : Card) (self : Hand) : result Hand :=
  let aces1 := if String.eqb (value card) "ACE" then aces self + 1 else aces self in
  match card_values !! value card with
  | None => Raise KeyError
  | Some v =>
      let score1 := score self + v in
      let cards1 := cards self ++ [card] in
      let '(score2, aces2) := soften score1 aces1 in
      Return {| score := score2; cards := cards1; aces := aces2 |}
  end.

(** A sequence of [add_card] calls on one hand. *)
Fixpoint add_cards (cs : list Card) (self : Hand) : result Hand :=
  match cs with
  | [] => Return self
  | c :: cs' => h ← add_card c self; add_cards cs' h
  end.

(** 1 for an ace, 0 for another card: what [add_card] adds to [aces]. *)
Definition ace_count (c : Card) : Z := if String.eqb (value c) "ACE" then 1 else 0.

(** The invariant of a hand: the count of soft aces is not negative, and
    the score exceeds 21 only when no soft ace is left. *)
Definition hand_ok (h : Hand) : Prop :=
  0 <= aces h /\ (score h <= 21 \/ aces h = 0).

(** ** The round *)

(** [class Deck]: the cards come from a remote service; a deck is modelled
    by the cards [draw] will return, in that order (the order after
    [deck.shuffle()], which the controller calls first when the deck is not
    shuffled).  When no card is left the service answers with an empty
    ["cards"] list and [result["cards"][0]] raises [IndexError]. *)
Definition Deck : Type := list Card.

Definition draw (deck : Deck) : result (Card * Deck) :=
  match deck with
  | [] => Raise IndexError
  | card :: deck' => Return (card, deck')
  end.

(** [self.state]: the dictionary with the two hands. *)
Record State : Type := mkState { dealer : Hand; player : Hand }.

(** The calls the controller makes on the view, with the state passed. *)
Inductive ViewCall : Type :=
| ask_next_move (st : State)
| player_won (st : State)
| player_lost (st : State).

(** [BlackjackController.draw_first_cards]: [for _ in range(2)]. *)
Definition draw_pair (deck : Deck) (player_hand dealer_hand : Hand)
  : result (Hand * Hand * Deck) :=
  '(c1, deck1) ← draw deck;
  player_hand' ← add_card c1 player_hand;
  '(c2, deck2) ← draw deck1;
  dealer_hand' ← add_card c2 dealer_hand;
  Return (player_hand', dealer_hand', deck2).

Definition draw_first_cards (deck : Deck) (player_hand dealer_hand : Hand)
  : result (Hand * Hand * Deck) :=
  '(p1, d1, deck1) ← draw_pair deck player_hand dealer_hand;
  draw_pair deck1 p1 d1.

(** [BlackjackController.player_moves].  [inputs] are the answers
    [view.ask_next_move] returns (["H"] or ["S"]), one for each call; the
    view is asked only when the score is below 21 ([and] evaluates its
    second operand only then), and every turn of the loop uses one answer. *)
Fixpoint player_moves (inputs : list string) (deck : Deck)
    (player_hand dealer_hand : Hand)
  : result (Hand * Deck * list string * list ViewCall) :=
  if score player_hand <? 21 then
    match inputs with
    | [] => Raise EOFError
    | answer :: inputs' =>
        let call := ask_next_move {| dealer := dealer_hand; player := player_hand |} in
        if String.eqb answer "H" then
          '(card, deck') ← draw deck;
          player_hand' ← add_card card player_hand;
          '(p, d, i, calls) ← player_moves inputs' deck' player_hand' dealer_hand;
          Return (p, d, i, call :: calls)
        else Return (player_hand, deck, inputs', [call])
    end
  else Return (player_hand, deck, inputs, []).

(** [BlackjackController.dealer_moves]: every turn of the loop draws one
    card. *)
Fixpoint dealer_moves (deck : Deck) (dealer_hand player_hand : Hand)
  : result (Hand * Deck) :=
  if score dealer_hand <? score player_hand then
    match deck with
    | [] => Raise IndexError
    | card :: deck' =>
        dealer_hand' ← add_card card dealer_hand;
        dealer_moves deck' dealer_hand' player_hand
    end
  else Return (dealer_hand, deck).

(** What a round leaves behind: the hands, the cards and answers not used,
    and the calls made on the view, oldest first. *)
Record Round : Type := mkRound {
  state : State;
  deck_left : Deck;
  inputs_left : list string;
  view_calls : list ViewCall
}.

(** [BlackjackController.__init__] *)
Definition BlackjackController (deck : Deck) (inputs : list string)
  : result Round :=
  '(p0, d0, deck1) ← draw_first_cards deck Hand_init Hand_init;
  if score p0 =? 21 then
    let st := {| dealer := d0; player := p0 |} in
    Return (mkRound st deck1 inputs [player_won st])
  else
    '(p1, deck2, inputs', asks) ← player_moves inputs deck1 p0 d0;
    let st := {| dealer := d0; player := p1 |} in
    if score p1 =? 21 then
      Return (mkRound st deck2 inputs' (asks ++ [player_won st]))
    else if (score p1 >? 21) || (score d0 =? 21) then
      Return (mkRound st deck2 inputs' (asks ++ [player_lost st]))
    else
      '(d1, deck3) ← dealer_moves deck2 d0 p1;
      let st := {| dealer := d1; player := p1 |} in
      if score d1 >? 22 then
        Return (mkRound st deck3 inputs' (asks ++ [player_won st]))
      else if score d1 >? score p1 then
        Return (mkRound st deck3 inputs' (asks ++ [player_lost st]))
      else
        Return (mkRound st deck3 inputs' asks).

(** The verdict of a round: the [player_won] or [player_lost] call that
    ends it, if there is one. *)
Inductive Outcome : Type := PLAYER_WON | PLAYER_LOST.

Definition outcome (r : Round) : option Outcome :=
  match last (view_calls r) with
  | Some (player_won _) => Some PLAYER_WON
  | Some (player_lost _) => Some PLAYER_LOST
  | _ => None
  end.

(** The number of HIT/STAND decisions requested in a round. *)
Definition is_ask (c : ViewCall) : bool :=
  match c with ask_next_move _ => true | _ => false end.

Definition decisions (r : Round) : nat :=
  length (List.filter is_ask (view_calls r)).

(** The round gets to the dealer's turn: the first four cards are dealt,
    the player has no 21 then, the player's turn ends with the hand [p1],
    which is no 21 and no bust, and the dealer's first two cards [d0] are no
    21. *)
Definition dealer_turn_reached (deck : Deck) (inputs : list string)
    (p1 d0 : Hand) (deck2 : Deck) (inputs' : list string) (asks : list ViewCall)
  : Prop :=
  exists (p0 : Hand) (deck1 : Deck),
    draw_first_cards deck Hand_init Hand_init = Return (p0, d0, deck1) /\
    score p0 <> 21 /\
    player_moves inputs deck1 p0 d0 = Return (p1, deck2, inputs', asks) /\
    score p1 <> 21 /\
    ~ (score p1 > 21 \/ score d0 = 21).

(** Cards for examples; the suit and the code play no part in the rules. *)
Definition card (v : string) : Card := {| value := v; suit := "SPADES"; code := v |}.

(** The hand that holds the given cards, added in that order. *)
Definition hand_of (cs : list Card) : Hand :=
  match add_cards cs Hand_init with
  | Return h => h
  | Raise _ => Hand_init
  end.

(** ** Hands by their cards *)

(** The value [add_card] adds for a card; 0 stands for a card that has
    none. *)
Definition value_of (c : Card) : Z := default 0 (card_values !! value c).

(** A card whose value is a key of [card_values]. *)
Definition valid_card (c : Card) : Prop := is_Some (card_values !! value c).

(** The values of the cards with every ace at 11, and the number of
    aces. *)
Definition face_total (cs : list Card) : Z :=
  foldr (fun c n => value_of c + n) 0 cs.

Definition ace_total (cs : list Card) : Z :=
  foldr (fun c n => ace_count c + n) 0 cs.

(** How many aces count as 1 in a hand with [n_aces] aces and the total
    [total] when every ace is at 11: as many as it takes to come down to 21
    or below, and no more than there are. *)
Definition downgrades (total n_aces : Z) : Z :=
  Z.min n_aces (Z.max 0 ((total - 12) / 10)).

(** A hand that holds cards of the total [S] with [A] aces, [k] of which
    have been taken down to 1, one after the other while the score was above
    21. *)
Definition hand_counts (h : Hand) (S A : Z) : Prop :=
  exists k : Z,
    0 <= k <= A /\ score h = S - 10 * k /\ aces h = A - k /\
    (forall j, 0 <= j < k -> 21 < S - 10 * j) /\
    ~ (21 < S - 10 * k /\ 0 < A - k).

(** A verdict read off the two final scores. *)
Definition verdict (p d : Z) : option Outcome :=
  if p =? 21 then Some PLAYER_WON
  else if p >? 21 then Some PLAYER_LOST
  else if d >? 22 then Some PLAYER_WON
  else if d >? p then Some PLAYER_LOST
  else None.

(** ** The view *)

(** [Card.__repr__] *)
Definition Card_repr (c : Card) : string := code c.





(** The four values [BlackjackView.display_state] puts into the text it
    prints: the dealer's score or ["??"], the dealer's cards or the string
    that hides the last of them, the player's score and the player's
    cards. *)
Record Display : Type := mkDisplay {
  dealer_score_shown : Z + string;
  dealer_cards_shown : list Card + string;
  player_score_shown : Z;
  player_cards_shown : list Card
}.

Definition display_state (st : State) (final : bool) : Display :=
  {| dealer_score_shown :=
       if final then inl (score (dealer st)) else inr "??"%string;
     dealer_cards_shown :=
       if final then inl (cards (dealer st))
       else inr ("[" +:+
                 String.concat ","
                   (map Card_repr (removelast (cards (dealer st))) ++ ["??"%string])
                 +:+ "]");
     player_score_shown := score (player st);
     player_cards_shown := cards (player st) |}.

(** ** Hands and rounds for examples *)

Definition ace_ace_nine : list Card := [card "ACE"; card "ACE"; card "9"].

Definition nine_ace_ace : list Card := [card "9"; card "ACE"; card "ACE"].

(** The player stands on 19, the dealer has 12 and draws a king. *)
Definition deck_dealer_22 : Deck :=
  [card "10"; card "5"; card "9"; card "7"; card "KING"].

(** Player and dealer both have 19 and the player stands. *)
Definition deck_tie : Deck :=
  [card "10"; card "QUEEN"; card "9"; card "9"; card "3"].

(** The player has 11, takes a four and stands on 15. *)
Definition deck_hit_stand : Deck :=
  [card "5"; card "10"; card "6"; card "8"; card "4"; card "2"; card "7"].

(** The round on [deck_dealer_22], in which the player stands at once. *)
Definition round_dealer_22 : Round :=
  match BlackjackController deck_dealer_22 ["S"%string] with
  | Return r => r
  | Raise _ => mkRound (mkState Hand_init Hand_init) [] [] []
  end.

(** The round on [deck_tie]. *)
Definition round_tie : Round :=
  match BlackjackController deck_tie ["S"%string] with
  | Return r => r
  | Raise _ => mkRound (mkState Hand_init Hand_init) [] [] []
  end.

End Blackjack.

(** * Golf Solitaire *)

Module Solitaire.

(** Modelled from the spec: class [Card] of the module [cards], which
    [solitaire.py] imports and which is not under src/.  A card is an
    immutable value with a numeric [rank]; [==] on cards decides equality of
    cards. *)
Class CardLike (Card : Type) : Type := {
  card_eq_dec :: EqDecision Card;
  rank : Card -> Z
}.

(** Modelled from the spec: the rank numbers of the module [cards]: the
    thirteen ranks are numbered in order, Ace lowest and King highest, so
    that 8 is next to 7 and 9. *)
Definition ACE : Z := 1.
Definition QUEEN : Z := 12.
Definition KING : Z := 13.

(** A value a method returns: [True], [False], or [None] when the call
    reaches the end of the body without a [return]. *)
Inductive PyValue : Type :=
| PyNone
| PyBool (b : bool).

(** Truth value of a returned value, as [if] and [elif] test it. *)
Definition truth (v : PyValue) : bool :=
  match v with
  | PyNone => false
  | PyBool b => b
  end.

(** [l[i]] for a Python index: [0 .. len-1] from the front, [-len .. -1]
    from the back, anything else is out of range. *)
Definition py_index (len : nat) (i : Z) : option nat :=
  if 0 <=? i then
    if i <? Z.of_nat len then Some (Z.to_nat i) else None
  else
    if - Z.of_nat len <=? i then Some (Z.to_nat (Z.of_nat len + i)) else None.

Section Game.

Context {Card : Type} `{CardLike Card}.

(** Modelled from the spec: class [Deck] of the module [cards] (not under
    src/).  A deck is the list of the cards [deal_card] will hand out, in
    that order (the order [Deck.shuffle_deck] has left); [deal_card] removes
    and returns the next card and fails when none remains. *)
Definition deal_card (deck : list Card) : result (Card * list Card) :=
  match deck with
  | [] => Raise SupplyExhausted
  | c :: deck' => Return (c, deck')
  end.

(** The attributes of a [Solitaire] object. *)
Record Solitaire : Type := mkSolitaire {
  deck : list Card;
  tableau : list (list Card);
  stock : list Card;
  waste : list Card
}.

(** The class attributes. *)
Definition columns : nat := 7.
Definition cards_in_column : nat := 1.

(** [for _ in range(n): pile.append(self.deck.deal_card())] on an empty
    [pile]. *)
Fixpoint deal_pile (n : nat) (deck : list Card) : result (list Card * list Card) :=
  match n with
  | O => Return ([], deck)
  | S n' =>
      '(c, deck1) ← deal_card deck;
      '(pile, deck2) ← deal_pile n' deck1;
      Return (c :: pile, deck2)
  end.

(** The loop over [range(Solitaire.columns)] of [__init__]: each column is
    a new list, filled before the next one is started. *)
Fixpoint deal_tableau (cols per_column : nat) (deck : list Card)
  : result (list (list Card) * list Card) :=
  match cols with
  | O => Return ([], deck)
  | S cols' =>
      '(column, deck1) ← deal_pile per_column deck;
      '(rest, deck2) ← deal_tableau cols' per_column deck1;
      Return (column :: rest, deck2)
  end.

(** [Solitaire.__init__] for given values of the class attributes; the
    argument is the shuffled deck.  [range] of a negative number is empty,
    as the truncated subtraction is. *)
Definition setup (cols per_column : nat) (shuffled : list Card) : result Solitaire :=
  '(tableau0, deck1) ← deal_tableau cols per_column shuffled;
  '(top, deck2) ← deal_card deck1;
  '(stock0, deck3) ← deal_pile (51 - cols * per_column)%nat deck2;
  Return {| deck := deck3; tableau := tableau0; stock := stock0; waste := [top] |}.

Definition Solitaire_init (shuffled : list Card) : result Solitaire :=
  setup columns cards_in_column shuffled.

(** The loop of [Solitaire.can_move] over [self.tableau].  [and] evaluates
    [self.waste[-1]] only for a non-empty column whose last card is [card];
    on an empty waste pile that access raises [IndexError]. *)
Fixpoint can_move_from (cols : list (list Card)) (waste_pile : list Card) (card : Card)
  : result bool :=
  match cols with
  | [] => Return false
  | column :: cols' =>
      match last column with
      | Some c =>
          if bool_decide (c = card) then
            match last waste_pile with
            | None => Raise IndexError
            | Some top =>
                if Z.abs (rank top - rank card) =? 1 then Return true
                else can_move_from cols' waste_pile card
            end
          else can_move_from cols' waste_pile card
      | None => can_move_from cols' waste_pile card
      end
  end.

(** [Solitaire.can_move] *)
Definition can_move (self : Solitaire) (card : Card) : result bool :=
  can_move_from (tableau self) (waste self) card.

(** [Solitaire.move_card].  [self.tableau[col][-1]] raises [IndexError]
    for a column index out of range and for an empty column, before
    anything has changed; when it does not, [del] removes that same card. *)
Definition move_card (self : Solitaire) (col : Z) : result Solitaire :=
  match py_index (length (tableau self)) col with
  | None => Raise IndexError
  | Some i =>
      match tableau self !! i with
      | None => Raise IndexError
      | Some column =>
          match last column with
          | None => Raise IndexError
          | Some c =>
              Return {| deck := deck self;
                        tableau := <[i := removelast column]> (tableau self);
                        stock := stock self;
                        waste := waste self ++ [c] |}
          end
      end
  end.

(** [Solitaire.deal_from_stock] *)
Definition deal_from_stock (self : Solitaire) : Solitaire :=
  match last (stock self) with
  | Some c =>
      {| deck := deck self;
         tableau := tableau self;
         stock := removelast (stock self);
         waste := waste self ++ [c] |}
  | None => self
  end.

(** [Solitaire.has_won] *)
Fixpoint has_won_from (cols : list (list Card)) : bool :=
  match cols with
  | [] => true
  | element :: cols' =>
      if (0 <? length element)%nat then false else has_won_from cols'
  end.

Definition has_won (self : Solitaire) : bool := has_won_from (tableau self).

(** The loop of [Solitaire.has_lost] over [self.tableau]. *)
Fixpoint has_lost_from (self : Solitaire) (cols : list (list Card)) : result PyValue :=
  match cols with
  | [] => Return (PyBool true)
  | element :: cols' =>
      match last element with
      | Some c =>
          movable ← can_move self c;
          if (movable : bool) then Return (PyBool false) else has_lost_from self cols'
      | None => has_lost_from self cols'
      end
  end.

(** [Solitaire.has_lost]: the body is one [if] without an [else]. *)
Definition has_lost (self : Solitaire) : result PyValue :=
  match stock self with
  | [] => has_lost_from self (tableau self)
  | _ :: _ => Return PyNone
  end.

(** The methods a caller can invoke on a game. *)
Inductive Call : Type :=
| call_can_move (card : Card)
| call_move_card (col : Z)
| call_deal_from_stock
| call_has_won
| call_has_lost.

(** The object after a call.  Only [move_card] and [deal_from_stock]
    assign to the attributes or change a list; a call that raises leaves
    the object as it was. *)
Definition after (self : Solitaire) (c : Call) : Solitaire :=
  match c with
  | call_move_card col =>
      match move_card self col with
      | Return self' => self'
      | Raise _ => self
      end
  | call_deal_from_stock => deal_from_stock self
  | call_can_move _ | call_has_won | call_has_lost => self
  end.

(** The states a game goes through: the one [__init__] builds from the
    shuffled deck, and the one after any call on such a state. *)
Inductive reachable (shuffled : list Card) : Solitaire -> Prop :=
| reachable_init s :
    Solitaire_init shuffled = Return s -> reachable shuffled s
| reachable_call s c :
    reachable shuffled s -> reachable shuffled (after s c).

(** All the cards of a game, and how many they are. *)
Definition all_cards (self : Solitaire) : list Card :=
  concat (tableau self) ++ waste self ++ stock self.

Definition total (self : Solitaire) : nat :=
  (length (concat (tableau self)) + length (waste self) + length (stock self))%nat.

(** ** The game loop *)

(** A line typed at the prompt of [play], as [play] tells lines apart:
    ["q"], ["r"], ["d"], a line that [int] turns into the number [n], and
    any other line, on which [int] raises [ValueError]. *)
Inductive Command : Type :=
| cmd_q
| cmd_r
| cmd_d
| cmd_int (n : Z)
| cmd_other.

(** What [play] can raise: the [ValueError] of [int], or an exception of
    the methods and of [input]. *)
Inductive play_exn : Type :=
| ValueError
| Raised (e : exn).

(** What [play] prints: the game (at the top of every turn of the loop),
    the rules, and the complaint about a number that is no column. *)
Inductive Printed : Type :=
| printed_game (s : Solitaire)
| printed_rules
| printed_invalid.

Inductive play_result : Type :=
| play_raise (e : play_exn)
| play_return (message : string) (s : Solitaire) (out : list Printed).

(** The [if]/[elif] chain of the loop body for a command other than
    ["q"]: the game after it and what it printed. *)
Definition play_command (self : Solitaire) (command : Command)
  : play_exn + (Solitaire * list Printed) :=
  match command with
  | cmd_q => inr (self, [])
  | cmd_r => inr (self, [printed_rules])
  | cmd_d => inr (deal_from_stock self, [])
  | cmd_other => inl ValueError
  | cmd_int n =>
      if (0 <=? n) && (n <? Z.of_nat columns) then
        match tableau self !! Z.to_nat n with
        | None => inl (Raised IndexError)
        | Some column =>
            match last column with
            | None => inr (self, [])
            | Some c =>
                match can_move self c with
                | Raise e => inl (Raised e)
                | Return false => inr (self, [])
                | Return true =>
                    match move_card self n with
                    | Raise e => inl (Raised e)
                    | Return self' => inr (self', [])
                    end
                end
            end
        end
      else inr (self, [printed_invalid])
  end.

(** The loop of [Solitaire.play]; [commands] are the lines [input()]
    returns, and [input()] raises [EOFError] when none is left.  The
    greeting printed before the loop is left out. *)
Fixpoint play (commands : list Command) (self : Solitaire) : play_result :=
  match commands with
  | [] => play_raise (Raised EOFError)
  | command :: commands' =>
      match command with
      | cmd_q => play_return "You quit!" self [printed_game self]
      | _ =>
          match play_command self command with
          | inl e => play_raise e
          | inr (self', printed) =>
              if has_won self' then
                play_return "You have won!" self' (printed_game self :: printed)
              else
                match has_lost self' with
                | Raise e => play_raise (Raised e)
                | Return v =>
                    if truth v then
                      play_return "You have lost!" self' (printed_game self :: printed)
                    else
                      match play commands' self' with
                      | play_raise e => play_raise e
                      | play_return message s out =>
                          play_return message s (printed_game self :: printed ++ out)
                      end
                end
          end
      end
  end.

(** One change of the game that the rules allow: a card dealt from the
    stock, or the last card of a column moved when [can_move] accepts it. *)
Definition legal_step (s s' : Solitaire) : Prop :=
  s' = deal_from_stock s \/
  exists (i : nat) (column : list Card) (c : Card),
    tableau s !! i = Some column /\ last column = Some c /\
    can_move s c = Return true /\
    move_card s (Z.of_nat i) = Return s'.

(** A card that is the last of a column. *)
Definition exposed (s : Solitaire) (card : Card) : Prop :=
  exists column, column ∈ tableau s /\ last column = Some card.

End Game.

(** A deck for examples: a card is its rank number and its suit. *)
Inductive Suit : Type := Clubs | Diamonds | Hearts | Spades.

#[global] Instance Suit_eq_dec : EqDecision Suit.
Proof. solve_decision. Defined.

Definition PlainCard : Type := Z * Suit.

#[global] Instance PlainCard_CardLike : CardLike PlainCard :=
  {| rank := fst |}.

Definition suit_cards (s : Suit) : list PlainCard :=
  (fun r => (Z.of_nat r, s)) <$> seq 1 13.

Definition full_deck : list PlainCard :=
  suit_cards Clubs ++ suit_cards Diamonds ++ suit_cards Hearts ++ suit_cards Spades.

(** The 52 cards in an order that leaves no move after the deal: the
    columns get the odd clubs and the waste pile an ace. *)
Definition stuck_first : list PlainCard :=
  [(1, Clubs); (3, Clubs); (5, Clubs); (7, Clubs); (9, Clubs); (11, Clubs);
   (13, Clubs); (1, Diamonds)].

Definition stuck_deck : list PlainCard :=
  stuck_first ++ list_difference full_deck stuck_first.

(** The game [__init__] builds from a deck of 52 cards. *)
Definition start_of (shuffled : list PlainCard) : Solitaire :=
  match Solitaire_init shuffled with
  | Return s => s
  | Raise _ => {| deck := []; tableau := []; stock := []; waste := [] |}
  end.

(** A game with a 7 on the waste pile and columns that end in a 6, an 8
    and a 2. *)
Definition seven_on_waste : Solitaire :=
  {| deck := [];
     tableau := [[(10, Hearts); (6, Clubs)]; [(8, Hearts)]; [(2, Spades)]];
     stock := [(4, Diamonds); (12, Clubs)];
     waste := [(3, Hearts); (7, Diamonds)] |}.


(** A game near its end: no stock, a queen on the waste pile, columns that
    end in a 2 and a 9, and an empty column. *)
Definition stuck_game : Solitaire :=
  {| deck := [];
     tableau := [[(2, Clubs)]; []; [(5, Hearts); (9, Spades)]];
     stock := [];
     waste := [(12, Hearts)] |}.

(** A game with an empty tableau and an empty stock. *)
Definition cleared_game : Solitaire :=
  {| deck := []; tableau := [[]; []]; stock := []; waste := [(3, Clubs)] |}.

(** A state no game gets into: nothing on the waste pile. *)
Definition no_waste_game : Solitaire :=
  {| deck := []; tableau := [[(2, Clubs)]]; stock := []; waste := [] |}.

(** On the game dealt from [full_deck] the columns hold the ace to the 7
    of clubs and the waste pile the 8: the columns can be cleared from the
    last to the first. *)
Definition winning_commands : list Command :=
  [cmd_int 6; cmd_int 5; cmd_int 4; cmd_int 3; cmd_int 2; cmd_int 1; cmd_int 0].

End Solitaire.

(** * Properties of the Blackjack engine *)

(** A sequence of two steps returns only when both do. *)
Lemma bind_Return {A B : Type} (r : result A) (k : A -> result B) (b : B) :
  r ≫= k = Return b -> exists a, r = Return a /\ k a = Return b.
Proof. destruct r as [e|a]; simpl; [discriminate | eauto]. Qed.

Section BlackjackProperties.

Import Blackjack.

(** One turn of the loop of [add_card], or its exit. *)
Lemma soften_unfold (s a : Z) :
  soften s a = if decide (21 < s /\ 0 < a) then soften (s - 10) (a - 1) else (s, a).
Proof. funelim (soften s a); rewrite Heq; reflexivity. Qed.

(** The loop turns [k] times: as long as the score exceeds 21 with a soft
    ace left, and no longer. *)
Lemma soften_spec (s a : Z) :
  exists k : Z,
    0 <= k /\ soften s a = (s - 10 * k, a - k) /\
    (forall j, 0 <= j < k -> 21 < s - 10 * j /\ 0 < a - j) /\
    ~ (21 < s - 10 * k /\ 0 < a - k).
Proof.
  funelim (soften s a).
  - destruct H as (k & Hk & Hres & Hturns & Hexit).
    exists (k + 1). split; [lia|]. split; [|split].
    + rewrite Hres. f_equal; lia.
    + intros j Hj. destruct (decide (j = 0)) as [->|Hne].
      * rewrite Z.mul_0_r, !Z.sub_0_r. exact Hcond.
      * specialize (Hturns (j - 1)). lia.
    + replace (s - 10 * (k + 1)) with (s - 10 - 10 * k) by lia.
      replace (a - (k + 1)) with (a - 1 - k) by lia. exact Hexit.
  - exists 0. split; [lia|]. split; [|split].
    + f_equal; lia.
    + intros j Hj. lia.
    + rewrite Z.mul_0_r, !Z.sub_0_r. assumption.
Qed.

Lemma add_card_unfold (c : Card) (h : Hand) (v : Z) :
  card_values !! value c = Some v ->
  add_card c h =
    Return {| score := fst (soften (score h + v) (aces h + ace_count c));
              cards := cards h ++ [c];
              aces := snd (soften (score h + v) (aces h + ace_count c)) |}.
Proof.
  intros Hv. unfold add_card, ace_count. rewrite Hv.
  destruct (String.eqb (value c) "ACE");
    [|rewrite Z.add_0_r]; destruct (soften _ _); reflexivity.
Qed.

Lemma add_card_Return (c : Card) (h h' : Hand) :
  add_card c h = Return h' ->
  exists v, card_values !! value c = Some v.
Proof.
  unfold add_card. destruct (card_values !! value c) as [v|]; [eauto | discriminate].
Qed.

(** What one [add_card] does to a hand. *)
Lemma add_card_spec (c : Card) (h h' : Hand) :
  add_card c h = Return h' ->
  exists v k : Z,
    card_values !! value c = Some v /\ 0 <= k /\
    score h' = score h + v - 10 * k /\
    aces h' = aces h + ace_count c - k /\
    cards h' = cards h ++ [c] /\
    (forall j, 0 <= j < k ->
       21 < score h + v - 10 * j /\ 0 < aces h + ace_count c - j) /\
    ~ (21 < score h' /\ 0 < aces h').
Proof.
  intros Hadd. destruct (add_card_Return _ _ _ Hadd) as [v Hv].
  rewrite (add_card_unfold _ _ _ Hv) in Hadd. injection Hadd as <-.
  destruct (soften_spec (score h + v) (aces h + ace_count c))
    as (k & Hk & Hres & Hturns & Hexit).
  exists v, k. rewrite Hres. simpl. auto 10.
Qed.

Lemma ace_count_nonneg (c : Card) : 0 <= ace_count c.
Proof. unfold ace_count. destruct (String.eqb _ _); lia. Qed.

Lemma add_card_hand_ok (c : Card) (h h' : Hand) :
  0 <= aces h -> add_card c h = Return h' -> hand_ok h'.
Proof.
  intros Ha Hadd.
  destruct (add_card_spec _ _ _ Hadd) as (v & k & _ & Hk & _ & Haces & _ & Hturns & Hexit).
  pose proof (ace_count_nonneg c) as Hc.
  assert (0 <= aces h') as Hnn.
  { destruct (decide (k = 0)) as [->|Hne]; [lia|].
    specialize (Hturns (k - 1)). lia. }
  split; [exact Hnn | lia].
Qed.

Lemma add_cards_hand_ok (cs : list Card) (h h' : Hand) :
  hand_ok h -> add_cards cs h = Return h' -> hand_ok h'.
Proof.
  revert h. induction cs as [|c cs IH]; intros h Hok Hadd; simpl in Hadd.
  - injection Hadd as <-. exact Hok.
  - apply bind_Return in Hadd as (h1 & H1 & Hrest).
    apply (IH h1); [|exact Hrest].
    apply (add_card_hand_ok c h); [apply Hok | exact H1].
Qed.

Lemma add_card_total (c : Card) (h : Hand) :
  is_Some (card_values !! value c) -> exists h', add_card c h = Return h'.
Proof. intros [v Hv]. rewrite (add_card_unfold _ _ _ Hv). eauto. Qed.

(** C1.  After every [add_card] on a hand that started empty the score is
    at most 21 or no ace is counted as 11 any more, and so it is after one
    [add_card] on any hand whose count of soft aces is not negative.
    [add_card] returns for every card whose value is one of the thirteen; it
    adds the card's value and then takes 10 off the score and 1 off the
    count of soft aces [k] times, where every one of these [k] turns found
    the score above 21 with a soft ace left, and the state after them does
    not. *)
Theorem add_card_soft_ace_invariant :
  (forall (cs : list Card) (h : Hand),
     add_cards cs Hand_init = Return h -> score h <= 21 \/ aces h = 0) /\
  (forall (c : Card) (h h' : Hand),
     0 <= aces h -> add_card c h = Return h' ->
     (score h' <= 21 \/ aces h' = 0) /\ 0 <= aces h') /\
  (forall (c : Card) (h : Hand),
     is_Some (card_values !! value c) -> exists h', add_card c h = Return h') /\
  (forall (c : Card) (h h' : Hand),
     add_card c h = Return h' ->
     exists v k : Z,
       card_values !! value c = Some v /\ 0 <= k /\
       score h' = score h + v - 10 * k /\
       aces h' = aces h + ace_count c - k /\
       cards h' = cards h ++ [c] /\
       (forall j, 0 <= j < k ->
          21 < score h + v - 10 * j /\ 0 < aces h + ace_count c - j) /\
       ~ (21 < score h' /\ 0 < aces h')).
Proof.
  split; [|split; [|split]].
  - intros cs h Hadd.
    apply (add_cards_hand_ok cs Hand_init h); [|exact Hadd].
    split; simpl; [lia | left; lia].
  - intros c h h' Ha Hadd.
    destruct (add_card_hand_ok c h h' Ha Hadd) as [Hnn Hok]. auto.
  - exact add_card_total.
  - exact add_card_spec.
Qed.

(** ** The round *)

Lemma outcome_snoc_won (st : State) (dk : Deck) (ins : list string)
    (calls : list ViewCall) (st' : State) :
  outcome (mkRound st dk ins (calls ++ [player_won st'])) = Some PLAYER_WON.
Proof. unfold outcome. simpl. rewrite last_snoc. reflexivity. Qed.

Lemma outcome_snoc_lost (st : State) (dk : Deck) (ins : list string)
    (calls : list ViewCall) (st' : State) :
  outcome (mkRound st dk ins (calls ++ [player_lost st'])) = Some PLAYER_LOST.
Proof. unfold outcome. simpl. rewrite last_snoc. reflexivity. Qed.

(** With 21 or more the player's loop does not run and the view is not
    asked. *)
Lemma player_moves_done (inputs : list string) (deck : Deck) (p d : Hand) :
  21 <= score p -> player_moves inputs deck p d = Return (p, deck, inputs, []).
Proof.
  intros Hp. destruct inputs; simpl;
    destruct (score p <? 21) eqn:E; try reflexivity;
    apply Z.ltb_lt in E; lia.
Qed.

(** The calls of the player's turn are all [ask_next_move]. *)
Lemma player_moves_asks (inputs : list string) :
  forall (deck : Deck) (p d p1 : Hand) (deck2 : Deck) (inputs' : list string)
         (asks : list ViewCall),
    player_moves inputs deck p d = Return (p1, deck2, inputs', asks) ->
    Forall (fun c => is_ask c = true) asks.
Proof.
  induction inputs as [|answer inputs IH]; intros deck p d p1 deck2 inputs' asks Hpm;
    simpl in Hpm; destruct (score p <? 21).
  - discriminate.
  - injection Hpm as <- <- <- <-. constructor.
  - destruct (String.eqb answer "H").
    + apply bind_Return in Hpm as ([card dk] & _ & Hpm).
      apply bind_Return in Hpm as (p' & _ & Hpm).
      apply bind_Return in Hpm as ([[[p2 dk2] ins2] calls2] & Hrec & Hpm).
      injection Hpm as <- <- <- <-.
      constructor; [reflexivity | eapply IH; exact Hrec].
    + injection Hpm as <- <- <- <-. repeat constructor.
  - injection Hpm as <- <- <- <-. constructor.
Qed.

(** The round whose first two player cards make 21. *)
Lemma controller_blackjack (deck : Deck) (inputs : list string)
    (p0 d0 : Hand) (deck1 : Deck) :
  draw_first_cards deck Hand_init Hand_init = Return (p0, d0, deck1) ->
  score p0 = 21 ->
  BlackjackController deck inputs =
    Return (mkRound {| dealer := d0; player := p0 |} deck1 inputs
                    [player_won {| dealer := d0; player := p0 |}]).
Proof.
  intros Hfirst Hp0. unfold BlackjackController. rewrite Hfirst. simpl.
  rewrite Hp0. reflexivity.
Qed.

(** The round after the player's turn. *)
Lemma controller_after_player (deck : Deck) (inputs : list string)
    (p0 d0 : Hand) (deck1 : Deck) (p1 : Hand) (deck2 : Deck)
    (inputs' : list string) (asks : list ViewCall) :
  draw_first_cards deck Hand_init Hand_init = Return (p0, d0, deck1) ->
  score p0 <> 21 ->
  player_moves inputs deck1 p0 d0 = Return (p1, deck2, inputs', asks) ->
  BlackjackController deck inputs =
    let st := {| dealer := d0; player := p1 |} in
    if score p1 =? 21 then
      Return (mkRound st deck2 inputs' (asks ++ [player_won st]))
    else if (score p1 >? 21) || (score d0 =? 21) then
      Return (mkRound st deck2 inputs' (asks ++ [player_lost st]))
    else
      '(d1, deck3) ← dealer_moves deck2 d0 p1;
      let st := {| dealer := d1; player := p1 |} in
      if score d1 >? 22 then
        Return (mkRound st deck3 inputs' (asks ++ [player_won st]))
      else if score d1 >? score p1 then
        Return (mkRound st deck3 inputs' (asks ++ [player_lost st]))
      else
        Return (mkRound st deck3 inputs' asks).
Proof.
  intros Hfirst Hp0 Hpm. unfold BlackjackController. rewrite Hfirst. simpl.
  apply Z.eqb_neq in Hp0. rewrite Hp0, Hpm. reflexivity.
Qed.

(** The round from the dealer's turn on. *)
Lemma controller_dealer_turn (deck : Deck) (inputs : list string)
    (p1 d0 : Hand) (deck2 : Deck) (inputs' : list string) (asks : list ViewCall) :
  dealer_turn_reached deck inputs p1 d0 deck2 inputs' asks ->
  BlackjackController deck inputs =
    '(d1, deck3) ← dealer_moves deck2 d0 p1;
    let st := {| dealer := d1; player := p1 |} in
    if score d1 >? 22 then
      Return (mkRound st deck3 inputs' (asks ++ [player_won st]))
    else if score d1 >? score p1 then
      Return (mkRound st deck3 inputs' (asks ++ [player_lost st]))
    else
      Return (mkRound st deck3 inputs' asks).
Proof.
  intros (p0 & deck1 & Hfirst & Hp0 & Hpm & Hp1 & Hgo).
  rewrite (controller_after_player _ _ _ _ _ _ _ _ _ Hfirst Hp0 Hpm). simpl.
  apply Z.eqb_neq in Hp1. rewrite Hp1.
  destruct (score p1 >? 21) eqn:Ebust.
  { exfalso. apply Hgo. left. apply Z.gtb_lt in Ebust. lia. }
  destruct (score d0 =? 21) eqn:Edealer.
  { exfalso. apply Hgo. right. apply Z.eqb_eq in Edealer. exact Edealer. }
  reflexivity.
Qed.

(** The dealer's loop ends only with a score that is not below the
    player's. *)
Lemma dealer_moves_score (deck : Deck) :
  forall (d p d' : Hand) (deck' : Deck),
    dealer_moves deck d p = Return (d', deck') -> score p <= score d'.
Proof.
  induction deck as [|c deck IH]; intros d p d' deck' Hdm; simpl in Hdm;
    destruct (score d <? score p) eqn:E.
  - discriminate.
  - injection Hdm as <- <-. apply Z.ltb_ge in E. exact E.
  - apply bind_Return in Hdm as (d1 & _ & Hrec). eapply IH; exact Hrec.
  - injection Hdm as <- <-. apply Z.ltb_ge in E. exact E.
Qed.

(** A round that ends after the player's asks has no verdict. *)
Lemma outcome_asks (st : State) (dk : Deck) (ins : list string)
    (asks : list ViewCall) :
  Forall (fun c => is_ask c = true) asks ->
  outcome (mkRound st dk ins asks) = None.
Proof.
  intros Hasks. unfold outcome. simpl.
  destruct (last asks) as [c|] eqn:Hlast; [|reflexivity].
  apply last_Some_elem_of in Hlast.
  rewrite Forall_forall in Hasks. specialize (Hasks c Hlast).
  destruct c; simpl in Hasks; [reflexivity | discriminate | discriminate].
Qed.

Lemma dealer_turn_reached_asks (deck : Deck) (inputs : list string)
    (p1 d0 : Hand) (deck2 : Deck) (inputs' : list string) (asks : list ViewCall) :
  dealer_turn_reached deck inputs p1 d0 deck2 inputs' asks ->
  Forall (fun c => is_ask c = true) asks /\ score p1 < 21.
Proof.
  intros (p0 & deck1 & _ & _ & Hpm & Hp1 & Hgo). split.
  - eapply player_moves_asks; exact Hpm.
  - lia.
Qed.

(** C3.  When the round has got to the dealer's turn and the dealer's loop
    has ended with the hand [d1], the round ends with the hands as they are
    then, and its outcome is PLAYER_WON exactly when the dealer's score is
    above 22; with a dealer's score of exactly 22 the outcome is
    PLAYER_LOST. *)
Theorem dealer_bust_threshold_22 (deck : Deck) (inputs : list string)
    (p1 d0 : Hand) (deck2 : Deck) (inputs' : list string) (asks : list ViewCall)
    (d1 : Hand) (deck3 : Deck) :
  dealer_turn_reached deck inputs p1 d0 deck2 inputs' asks ->
  dealer_moves deck2 d0 p1 = Return (d1, deck3) ->
  exists r : Round,
    BlackjackController deck inputs = Return r /\
    state r = {| dealer := d1; player := p1 |} /\
    (outcome r = Some PLAYER_WON <-> 22 < score d1) /\
    (score d1 = 22 -> outcome r = Some PLAYER_LOST).
Proof.
  intros Hreach Hdm.
  rewrite (controller_dealer_turn _ _ _ _ _ _ _ Hreach), Hdm. simpl.
  destruct (dealer_turn_reached_asks _ _ _ _ _ _ _ Hreach) as [Hasks Hp1].
  destruct (score d1 >? 22) eqn:Ebust.
  { apply Z.gtb_lt in Ebust. eexists. split; [reflexivity|].
    split; [reflexivity|]. rewrite outcome_snoc_won.
    split; [split; [intros _; lia | reflexivity] | lia]. }
  assert (score d1 <= 22) as Hle.
  { destruct (Z.gtb_spec (score d1) 22); [discriminate | lia]. }
  destruct (score d1 >? score p1) eqn:Ecmp.
  - eexists. split; [reflexivity|]. split; [reflexivity|].
    rewrite outcome_snoc_lost.
    split; [split; [discriminate | lia] | reflexivity].
  - assert (score d1 <= score p1) as Hcmp.
    { destruct (Z.gtb_spec (score d1) (score p1)); [discriminate | lia]. }
    eexists. split; [reflexivity|]. split; [reflexivity|].
    rewrite (outcome_asks _ _ _ _ Hasks).
    split; [split; [discriminate | lia] | lia].
Qed.

(** C8.  With a score below the player's the dealer's loop draws the next
    card and goes on (it raises when no card is left, and never returns
    there); when the loop ends the dealer's score is not below the player's;
    and so it is in the final state of every round that has got to the
    dealer's turn. *)
Theorem dealer_never_stands_below_player :
  (forall (deck : Deck) (d p : Hand),
     score d < score p ->
     dealer_moves deck d p =
       match deck with
       | [] => Raise IndexError
       | c :: deck' => d' ← add_card c d; dealer_moves deck' d' p
       end) /\
  (forall (deck : Deck) (d p d' : Hand) (deck' : Deck),
     dealer_moves deck d p = Return (d', deck') -> score p <= score d') /\
  (forall (deck : Deck) (inputs : list string) (p1 d0 : Hand) (deck2 : Deck)
          (inputs' : list string) (asks : list ViewCall) (r : Round),
     dealer_turn_reached deck inputs p1 d0 deck2 inputs' asks ->
     BlackjackController deck inputs = Return r ->
     player (state r) = p1 /\ score p1 <= score (dealer (state r))).
Proof.
  split; [|split].
  - intros deck d p Hlt. apply Z.ltb_lt in Hlt.
    destruct deck; simpl; rewrite Hlt; reflexivity.
  - intros deck d p d' deck'. apply dealer_moves_score.
  - intros deck inputs p1 d0 deck2 inputs' asks r Hreach Hrun.
    rewrite (controller_dealer_turn _ _ _ _ _ _ _ Hreach) in Hrun.
    apply bind_Return in Hrun as ([d1 deck3] & Hdm & Hrun).
    apply dealer_moves_score in Hdm. simpl in Hrun.
    destruct (score d1 >? 22); [|destruct (score d1 >? score p1)];
      injection Hrun as <-; simpl; auto.
Qed.

(** C5, as the code has it.  When the player's turn has ended with a score
    of 22 or more, or with a score other than 21 while the dealer's first
    two cards make exactly 21, the outcome is PLAYER_LOST and the round ends
    there: the dealer's hand is the two first cards and no card has been
    drawn for the dealer. *)
Theorem player_bust_or_dealer_blackjack_loses (deck : Deck) (inputs : list string)
    (p0 d0 : Hand) (deck1 : Deck) (p1 : Hand) (deck2 : Deck)
    (inputs' : list string) (asks : list ViewCall) :
  draw_first_cards deck Hand_init Hand_init = Return (p0, d0, deck1) ->
  player_moves inputs deck1 p0 d0 = Return (p1, deck2, inputs', asks) ->
  22 <= score p1 \/ (score d0 = 21 /\ score p1 <> 21) ->
  exists r : Round,
    BlackjackController deck inputs = Return r /\
    outcome r = Some PLAYER_LOST /\
    state r = {| dealer := d0; player := p1 |} /\
    deck_left r = deck2.
Proof.
  intros Hfirst Hpm Hcond.
  assert (score p1 <> 21) as Hp1 by lia.
  assert (score p0 <> 21) as Hp0.
  { intros Hp0. rewrite player_moves_done in Hpm by lia.
    injection Hpm as <- <- <- <-. contradiction. }
  rewrite (controller_after_player _ _ _ _ _ _ _ _ _ Hfirst Hp0 Hpm). simpl.
  apply Z.eqb_neq in Hp1. rewrite Hp1.
  assert ((score p1 >? 21) || (score d0 =? 21) = true) as ->.
  { apply orb_true_iff. destruct Hcond as [Hbust | [Hd _]].
    - left. apply Z.gtb_lt. lia.
    - right. apply Z.eqb_eq. exact Hd. }
  eexists. split; [reflexivity|]. rewrite outcome_snoc_lost. auto.
Qed.

(** The exit of the loop of [add_card]. *)
Lemma soften_exit (s a : Z) : ~ (21 < s /\ 0 < a) -> soften s a = (s, a).
Proof. intros Hn. rewrite soften_unfold. destruct (decide _); [contradiction | reflexivity]. Qed.

(** C6.  When the player's score is 21 right after the first four cards,
    the round ends with the outcome PLAYER_WON, the view has been asked for
    no decision (the only call on it is [player_won], and no answer has been
    used), and no further card has been drawn.  A player who is dealt an ace
    and then a king wins so, whatever the two cards of the dealer are. *)
Theorem player_blackjack_wins_at_once :
  (forall (deck : Deck) (inputs : list string) (p0 d0 : Hand) (deck1 : Deck),
     draw_first_cards deck Hand_init Hand_init = Return (p0, d0, deck1) ->
     score p0 = 21 ->
     exists r : Round,
       BlackjackController deck inputs = Return r /\
       outcome r = Some PLAYER_WON /\
       decisions r = 0%nat /\
       view_calls r = [player_won {| dealer := d0; player := p0 |}] /\
       inputs_left r = inputs /\
       deck_left r = deck1) /\
  (forall (a k c1 c2 : Card) (rest : Deck) (inputs : list string),
     value a = "ACE"%string -> value k = "KING"%string ->
     is_Some (card_values !! value c1) -> is_Some (card_values !! value c2) ->
     exists r : Round,
       BlackjackController (a :: c1 :: k :: c2 :: rest) inputs = Return r /\
       cards (player (state r)) = [a; k] /\
       outcome r = Some PLAYER_WON /\
       decisions r = 0%nat /\
       inputs_left r = inputs).
Proof.
  split.
  - intros deck inputs p0 d0 deck1 Hfirst Hp0.
    rewrite (controller_blackjack _ _ _ _ _ Hfirst Hp0).
    eexists. split; [reflexivity|]. repeat split.
  - intros a k c1 c2 rest inputs Ha Hk Hc1 Hc2.
    assert (add_card a Hand_init = Return {| score := 11; cards := [a]; aces := 1 |})
      as Hadd_a.
    { rewrite (add_card_unfold a Hand_init 11) by (rewrite Ha; reflexivity).
      unfold ace_count. rewrite Ha. simpl.
      rewrite soften_exit by lia. reflexivity. }
    assert (add_card k {| score := 11; cards := [a]; aces := 1 |}
            = Return {| score := 21; cards := [a; k]; aces := 1 |}) as Hadd_k.
    { rewrite (add_card_unfold k _ 10) by (rewrite Hk; reflexivity).
      unfold ace_count. rewrite Hk. simpl.
      rewrite soften_exit by lia. reflexivity. }
    destruct (add_card_total c1 Hand_init Hc1) as [h1 Hadd1].
    destruct (add_card_total c2 h1 Hc2) as [h2 Hadd2].
    assert (draw_first_cards (a :: c1 :: k :: c2 :: rest) Hand_init Hand_init
            = Return ({| score := 21; cards := [a; k]; aces := 1 |}, h2, rest))
      as Hfirst.
    { unfold draw_first_cards, draw_pair. simpl.
      rewrite Hadd_a. simpl. rewrite Hadd1. simpl.
      rewrite Hadd_k. simpl. rewrite Hadd2. reflexivity. }
    rewrite (controller_blackjack _ inputs _ _ _ Hfirst eq_refl).
    eexists. split; [reflexivity|]. repeat split.
Qed.

(** ** The theorems at concrete rounds *)

Ltac run_round :=
  vm_compute; first [reflexivity | lia | intuition (discriminate || lia)].

(** A hand of ace, ace and nine: both aces start at 11 and one of them is
    taken down to 1. *)
Lemma add_card_soft_ace_invariant_witness :
  score (hand_of [card "ACE"; card "ACE"; card "9"]) = 21 /\
  (score (hand_of [card "ACE"; card "ACE"; card "9"]) <= 21 \/
   aces (hand_of [card "ACE"; card "ACE"; card "9"]) = 0).
Proof.
  split; [run_round|].
  apply (proj1 add_card_soft_ace_invariant [card "ACE"; card "ACE"; card "9"]).
  run_round.
Defined.

(** The player stands on 19; the dealer has 12, draws a king and stops at
    22, which is no bust here: the player loses. *)
Lemma dealer_bust_threshold_22_witness :
  exists r : Round,
    BlackjackController
      [card "10"; card "5"; card "9"; card "7"; card "KING"] ["S"%string]
      = Return r /\
    state r = {| dealer := hand_of [card "5"; card "7"; card "KING"];
                 player := hand_of [card "10"; card "9"] |} /\
    (outcome r = Some PLAYER_WON <->
       22 < score (hand_of [card "5"; card "7"; card "KING"])) /\
    (score (hand_of [card "5"; card "7"; card "KING"]) = 22 ->
       outcome r = Some PLAYER_LOST).
Proof.
  apply (dealer_bust_threshold_22
           [card "10"; card "5"; card "9"; card "7"; card "KING"] ["S"%string]
           (hand_of [card "10"; card "9"]) (hand_of [card "5"; card "7"])
           [card "KING"] []
           [ask_next_move {| dealer := hand_of [card "5"; card "7"];
                             player := hand_of [card "10"; card "9"] |}]
           (hand_of [card "5"; card "7"; card "KING"]) []).
  - exists (hand_of [card "10"; card "9"]), [card "KING"].
    repeat split; run_round.
  - run_round.
Defined.

(** The dealer has 12 against 19, draws a four and an eight and stops at
    24. *)
Lemma dealer_never_stands_below_player_witness :
  score (hand_of [card "10"; card "9"])
    <= score (hand_of [card "5"; card "7"; card "4"; card "8"]).
Proof.
  apply (proj1 (proj2 dealer_never_stands_below_player)
           [card "4"; card "8"; card "2"]
           (hand_of [card "5"; card "7"]) (hand_of [card "10"; card "9"])
           (hand_of [card "5"; card "7"; card "4"; card "8"]) [card "2"]).
  run_round.
Defined.

(** The player stands on 19 against an ace and a king of the dealer. *)
Lemma player_bust_or_dealer_blackjack_loses_witness :
  exists r : Round,
    BlackjackController
      [card "10"; card "ACE"; card "9"; card "KING"; card "2"] ["S"%string]
      = Return r /\
    outcome r = Some PLAYER_LOST /\
    state r = {| dealer := hand_of [card "ACE"; card "KING"];
                 player := hand_of [card "10"; card "9"] |} /\
    deck_left r = [card "2"].
Proof.
  apply (player_bust_or_dealer_blackjack_loses
           [card "10"; card "ACE"; card "9"; card "KING"; card "2"] ["S"%string]
           (hand_of [card "10"; card "9"]) (hand_of [card "ACE"; card "KING"])
           [card "2"]
           (hand_of [card "10"; card "9"]) [card "2"] []
           [ask_next_move {| dealer := hand_of [card "ACE"; card "KING"];
                             player := hand_of [card "10"; card "9"] |}]).
  - run_round.
  - run_round.
  - right. split; run_round.
Defined.

(** Against C5 as the spec words it: the dealer's first two cards, an ace
    and a king, make exactly 21; the player has 11, takes a card, a king,
    and has 21 after the turn; the outcome is PLAYER_WON. *)
Lemma dealer_blackjack_against_player_21 :
  exists (p0 d0 : Hand) (deck1 : Deck) (p1 : Hand) (deck2 : Deck)
         (inputs' : list string) (asks : list ViewCall) (r : Round),
    draw_first_cards
      [card "5"; card "ACE"; card "6"; card "KING"; card "KING"]
      Hand_init Hand_init = Return (p0, d0, deck1) /\
    player_moves ["H"%string] deck1 p0 d0 = Return (p1, deck2, inputs', asks) /\
    score p1 = 21 /\ score d0 = 21 /\
    (22 <= score p1 \/ score d0 = 21) /\
    BlackjackController
      [card "5"; card "ACE"; card "6"; card "KING"; card "KING"] ["H"%string]
      = Return r /\
    outcome r = Some PLAYER_WON /\
    outcome r <> Some PLAYER_LOST.
Proof.
  do 8 eexists.
  split; [vm_compute; reflexivity|].
  split; [vm_compute; reflexivity|].
  split; [vm_compute; reflexivity|].
  split; [vm_compute; reflexivity|].
  split; [right; vm_compute; reflexivity|].
  split; [vm_compute; reflexivity|].
  split; [vm_compute; reflexivity | vm_compute; discriminate].
Qed.

(** The player is dealt an ace and a king, the dealer a five and a seven. *)
Lemma player_blackjack_wins_at_once_witness :
  exists r : Round,
    BlackjackController
      [card "ACE"; card "5"; card "KING"; card "7"; card "3"] ["H"%string]
      = Return r /\
    outcome r = Some PLAYER_WON /\
    decisions r = 0%nat /\
    view_calls r = [player_won {| dealer := hand_of [card "5"; card "7"];
                                  player := hand_of [card "ACE"; card "KING"] |}] /\
    inputs_left r = ["H"%string] /\
    deck_left r = [card "3"].
Proof.
  apply (proj1 player_blackjack_wins_at_once
           [card "ACE"; card "5"; card "KING"; card "7"; card "3"] ["H"%string]
           (hand_of [card "ACE"; card "KING"]) (hand_of [card "5"; card "7"])
           [card "3"]); run_round.
Defined.

End BlackjackProperties.

(** * Properties of the Golf Solitaire engine *)

Section SolitaireProperties.

Import Solitaire.

Context {Card : Type} `{CardLike Card}.

(** A game played with these cards. *)
Local Abbreviation Game := (@Solitaire Card).

(** ** Dealing from the stock *)

(** C9.  With a stock that ends in the card [c], [deal_from_stock] takes
    [c] off the end of the stock and puts it at the end of the waste pile,
    and changes nothing else; with an empty stock it returns without an
    error and the game is as before. *)
Theorem deal_from_stock_moves_last_or_nothing :
  (forall (s : Game) (rest : list Card) (c : Card),
     stock s = rest ++ [c] ->
     deal_from_stock s =
       {| deck := deck s; tableau := tableau s;
          stock := rest; waste := waste s ++ [c] |}) /\
  (forall s : Game, stock s = [] -> deal_from_stock s = s).
Proof.
  split.
  - intros s rest c Hstock. unfold deal_from_stock.
    rewrite Hstock, last_snoc, removelast_last. reflexivity.
  - intros s Hstock. unfold deal_from_stock. rewrite Hstock. reflexivity.
Qed.

(** ** Moving a card *)

Lemma can_move_from_spec (cols : list (list Card)) (w : list Card)
    (card top : Card) :
  last w = Some top ->
  (can_move_from cols w card = Return true <->
     (exists column, column ∈ cols /\ last column = Some card) /\
     Z.abs (rank top - rank card) = 1) /\
  (can_move_from cols w card = Return true \/
   can_move_from cols w card = Return false).
Proof.
  intros Hw. induction cols as [|column cols [IHiff IHval]]; simpl.
  - split; [|right; reflexivity]. split; [discriminate|].
    intros [(column & Hin & _) _]. inversion Hin.
  - assert (forall P : Prop,
              (forall c, last column = Some c -> c <> card) ->
              ((exists column0, column0 ∈ column :: cols /\ last column0 = Some card) /\ P
               <-> (exists column0, column0 ∈ cols /\ last column0 = Some card) /\ P))
      as Hskip.
    { intros P Hne. split; intros [(column0 & Hin & Hlast) HP]; (split; [|exact HP]).
      - apply elem_of_cons in Hin as [->|Hin]; [|eauto].
        exfalso. exact (Hne card Hlast eq_refl).
      - exists column0. split; [right; exact Hin | exact Hlast]. }
    destruct (last column) as [c|] eqn:Hlast.
    + case_bool_decide as Hc.
      * subst c. rewrite Hw.
        destruct (Z.abs (rank top - rank card) =? 1) eqn:Eadj.
        -- apply Z.eqb_eq in Eadj. split; [|left; reflexivity].
           split; [|reflexivity]. intros _. split; [|exact Eadj].
           exists column. split; [left | exact Hlast].
        -- apply Z.eqb_neq in Eadj. split; [|exact IHval].
           rewrite IHiff. split; intros [_ Hadj]; contradiction.
      * split; [|exact IHval]. rewrite IHiff. symmetry. apply Hskip.
        intros c' Hc'. congruence.
    + split; [|exact IHval]. rewrite IHiff. symmetry. apply Hskip.
      intros c' Hc'. discriminate.
Qed.

(** C4.  On a game whose waste pile has the topmost card [top]:
    [can_move] returns true or false, and true exactly when the card is the
    last card of a column of the tableau and its rank differs from the rank
    of [top] by exactly 1.  An ace and a king are never next to each other;
    with ranks from 1 to 13 an ace can be moved only onto a 2 and a king
    only onto a queen, and only a 2 onto an ace and only a queen onto a
    king.  With a 7 on the waste pile and columns that end in a 6, an 8 and
    a 2, the 6 and the 8 can be moved and the 2 cannot. *)
Theorem can_move_iff_exposed_and_adjacent :
  (forall (s : Game) (card top : Card),
     last (waste s) = Some top ->
     (can_move s card = Return true <->
        (exists column, column ∈ tableau s /\ last column = Some card) /\
        Z.abs (rank top - rank card) = 1) /\
     (can_move s card = Return true \/ can_move s card = Return false)) /\
  (forall (s : Game) (card top : Card),
     last (waste s) = Some top ->
     (rank card = ACE /\ rank top = KING) \/ (rank card = KING /\ rank top = ACE) ->
     can_move s card = Return false) /\
  (forall (s : Game) (card top : Card),
     last (waste s) = Some top ->
     ACE <= rank card <= KING -> ACE <= rank top <= KING ->
     can_move s card = Return true ->
     (rank card = ACE -> rank top = 2) /\
     (rank card = KING -> rank top = QUEEN) /\
     (rank top = ACE -> rank card = 2) /\
     (rank top = KING -> rank card = QUEEN)) /\
  (forall (s : Game) (c6 c8 c2 top : Card) (l1 l2 l3 w : list Card),
     tableau s = [l1 ++ [c6]; l2 ++ [c8]; l3 ++ [c2]] ->
     waste s = w ++ [top] ->
     rank top = 7 -> rank c6 = 6 -> rank c8 = 8 -> rank c2 = 2 ->
     can_move s c6 = Return true /\
     can_move s c8 = Return true /\
     can_move s c2 = Return false).
Proof.
  split; [|split; [|split]].
  - intros s card top Hw. exact (can_move_from_spec (tableau s) _ card top Hw).
  - intros s card top Hw Hranks.
    destruct (can_move_from_spec (tableau s) _ card top Hw) as [Hiff [Hval|Hval]];
      [|exact Hval].
    apply Hiff in Hval as [_ Hadj]. unfold ACE, KING in Hranks. lia.
  - intros s card top Hw Hcard Htop Hmove.
    apply (can_move_from_spec (tableau s) _ card top Hw) in Hmove as [_ Hadj].
    unfold ACE, KING, QUEEN in *. lia.
  - intros s c6 c8 c2 top l1 l2 l3 w Ht Hwaste Htop H6 H8 H2.
    assert (last (waste s) = Some top) as Hw by (rewrite Hwaste; apply last_snoc).
    assert (forall card, (exists column, column ∈ tableau s /\ last column = Some card)
                         <-> card = c6 \/ card = c8 \/ card = c2) as Hexposed.
    { intros card. rewrite Ht. split.
      - intros (column & Hin & Hlast).
        repeat (apply elem_of_cons in Hin as [->|Hin];
                [rewrite last_snoc in Hlast; injection Hlast as <-; auto |]).
        inversion Hin.
      - intros [ -> | [ -> | -> ] ]; eexists; (split; [|apply last_snoc]).
        + left.
        + right; left.
        + right; right; left. }
    split; [|split].
    + apply (can_move_from_spec (tableau s) _ c6 top Hw).
      split; [apply Hexposed; auto | lia].
    + apply (can_move_from_spec (tableau s) _ c8 top Hw).
      split; [apply Hexposed; auto | lia].
    + destruct (can_move_from_spec (tableau s) _ c2 top Hw) as [Hiff [Hval|Hval]];
        [|exact Hval].
      apply Hiff in Hval as [_ Hadj]. lia.
Qed.

(** ** The cards of a game *)

Lemma deal_pile_Return (n : nat) :
  forall deck0 pile deck1 : list Card,
    deal_pile n deck0 = Return (pile, deck1) ->
    deck0 = pile ++ deck1 /\ length pile = n.
Proof.
  induction n as [|n IH]; intros deck0 pile deck1 Hdeal; simpl in Hdeal.
  - injection Hdeal as <- <-. split; reflexivity.
  - destruct deck0 as [|c deck0]; [discriminate|]. simpl in Hdeal.
    apply bind_Return in Hdeal as ([pile' deck'] & Hrec & Hret).
    injection Hret as <- <-. apply IH in Hrec as [-> <-]. split; reflexivity.
Qed.

Lemma deal_pile_enough (n : nat) :
  forall deck0 : list Card,
    (n <= length deck0)%nat ->
    exists pile deck1, deal_pile n deck0 = Return (pile, deck1).
Proof.
  induction n as [|n IH]; intros deck0 Hlen; simpl.
  - eauto.
  - destruct deck0 as [|c deck0]; simpl in Hlen; [lia|]. simpl.
    destruct (IH deck0) as (pile & deck1 & ->); [lia|]. simpl. eauto.
Qed.

Lemma deal_tableau_Return (cols per_column : nat) :
  forall (deck0 : list Card) (t : list (list Card)) (deck1 : list Card),
    deal_tableau cols per_column deck0 = Return (t, deck1) ->
    deck0 = concat t ++ deck1 /\ length (concat t) = (cols * per_column)%nat.
Proof.
  induction cols as [|cols IH]; intros deck0 t deck1 Hdeal; simpl in Hdeal.
  - injection Hdeal as <- <-. split; reflexivity.
  - apply bind_Return in Hdeal as ([column deck'] & Hcol & Hdeal).
    apply bind_Return in Hdeal as ([rest deck''] & Hrec & Hret).
    injection Hret as <- <-.
    apply deal_pile_Return in Hcol as [-> Hcol].
    apply IH in Hrec as [-> Hrec]. simpl.
    rewrite length_app, Hcol, Hrec, <- app_assoc. split; [reflexivity | lia].
Qed.

Lemma deal_tableau_enough (cols per_column : nat) :
  forall deck0 : list Card,
    (cols * per_column <= length deck0)%nat ->
    exists t deck1, deal_tableau cols per_column deck0 = Return (t, deck1).
Proof.
  induction cols as [|cols IH]; intros deck0 Hlen; simpl.
  - eauto.
  - destruct (deal_pile_enough per_column deck0) as (column & deck1 & Hcol);
      [simpl in Hlen; lia|].
    rewrite Hcol. simpl.
    apply deal_pile_Return in Hcol as [-> Hcol].
    rewrite length_app in Hlen. simpl in Hlen.
    destruct (IH deck1) as (t & deck2 & ->); [lia|]. simpl. eauto.
Qed.

(** What [__init__] builds, when it returns. *)
Lemma setup_Return (cols per_column : nat) (shuffled : list Card) (s : Game) :
  setup cols per_column shuffled = Return s ->
  shuffled = all_cards s ++ deck s /\
  length (concat (tableau s)) = (cols * per_column)%nat /\
  length (waste s) = 1%nat /\
  length (stock s) = (51 - cols * per_column)%nat.
Proof.
  unfold setup. intros Hsetup.
  apply bind_Return in Hsetup as ([t deck1] & Ht & Hsetup).
  apply bind_Return in Hsetup as ([top deck2] & Htop & Hsetup).
  apply bind_Return in Hsetup as ([st deck3] & Hst & Hret).
  injection Hret as <-. unfold all_cards. simpl.
  apply deal_tableau_Return in Ht as [-> Ht].
  destruct deck1 as [|c deck1]; [discriminate|]. injection Htop as -> ->.
  apply deal_pile_Return in Hst as [-> Hst].
  repeat split; [|exact Ht|exact Hst].
  rewrite <- !app_assoc. reflexivity.
Qed.

(** [__init__] returns when the deck has the cards it deals. *)
Lemma setup_enough (cols per_column : nat) (shuffled : list Card) :
  (cols * per_column + 1 + (51 - cols * per_column) <= length shuffled)%nat ->
  exists s : Game, setup cols per_column shuffled = Return s.
Proof.
  intros Hlen. unfold setup.
  destruct (deal_tableau_enough cols per_column shuffled) as (t & deck1 & Ht); [lia|].
  rewrite Ht. simpl.
  apply deal_tableau_Return in Ht as [-> Ht].
  rewrite length_app, Ht in Hlen.
  destruct deck1 as [|top deck1]; simpl in Hlen; [lia|]. simpl.
  destruct (deal_pile_enough (51 - cols * per_column) deck1) as (st & deck3 & ->); [lia|].
  simpl. eauto.
Qed.

Lemma total_all_cards (s : Game) : total s = length (all_cards s).
Proof. unfold total, all_cards. rewrite !length_app. lia. Qed.

(** What [move_card] does, when it returns. *)
Lemma move_card_Return (s s' : Game) (col : Z) :
  move_card s col = Return s' ->
  exists (t1 t2 : list (list Card)) (l : list Card) (c : Card),
    tableau s = t1 ++ (l ++ [c]) :: t2 /\
    s' = {| deck := deck s; tableau := t1 ++ l :: t2;
            stock := stock s; waste := waste s ++ [c] |}.
Proof.
  unfold move_card. intros Hmove.
  destruct (py_index _ col) as [i|]; [|discriminate].
  destruct (tableau s !! i) as [column|] eqn:Hcol; [|discriminate].
  destruct (last column) as [c|] eqn:Hlast; [|discriminate].
  injection Hmove as <-. apply last_Some in Hlast as [l ->].
  exists (take i (tableau s)), (drop (S i) (tableau s)), l, c. split.
  - symmetry. apply take_drop_middle. exact Hcol.
  - rewrite removelast_last. f_equal. apply insert_take_drop.
    eapply lookup_lt_Some. exact Hcol.
Qed.

(** No call loses a card, doubles one, or touches the deck. *)
Lemma after_all_cards (s : Game) (c : Call) :
  all_cards (after s c) ≡ₚ all_cards s /\ deck (after s c) = deck s.
Proof.
  destruct c as [card|col| | |]; simpl; try (split; reflexivity).
  - destruct (move_card s col) as [e|s'] eqn:Hmove; [split; reflexivity|].
    apply move_card_Return in Hmove as (t1 & t2 & l & c & Ht & ->).
    unfold all_cards. simpl. rewrite Ht. split; [|reflexivity].
    rewrite !concat_app. simpl. solve_Permutation.
  - unfold deal_from_stock. destruct (last (stock s)) as [c|] eqn:Hlast;
      [|split; reflexivity].
    apply last_Some in Hlast as [l Hl]. unfold all_cards. simpl.
    rewrite Hl, removelast_last. split; [|reflexivity]. solve_Permutation.
Qed.

(** What a call does to the waste pile. *)
Lemma after_waste (s : Game) (c : Call) :
  waste (after s c) = waste s \/ exists x, waste (after s c) = waste s ++ [x].
Proof.
  destruct c as [card|col| | |]; simpl; auto.
  - destruct (move_card s col) as [e|s'] eqn:Hmove; [auto|].
    apply move_card_Return in Hmove as (t1 & t2 & l & c & _ & ->). simpl. eauto.
  - unfold deal_from_stock. destruct (last (stock s)) as [c|]; simpl; eauto.
Qed.

(** C7.  No call changes the number of cards in tableau, waste pile and
    stock, nor the cards themselves (they are the same up to their order).
    From a deck of 52 cards [__init__] returns a game with 52 cards in the
    three containers; and every state of such a game has 52 cards there,
    which are the cards of the deck, each as often as in the deck: when the
    cards of the deck are all different, no card is at two places. *)
Theorem cards_conserved :
  (forall (s : Game) (c : Call),
     total (after s c) = total s /\ all_cards (after s c) ≡ₚ all_cards s) /\
  (forall shuffled : list Card,
     length shuffled = 52%nat ->
     (exists s0 : Game, Solitaire_init shuffled = Return s0 /\ total s0 = 52%nat) /\
     (forall s : Game,
        reachable shuffled s ->
        total s = 52%nat /\
        all_cards s ≡ₚ shuffled /\
        deck s = [] /\
        (NoDup shuffled -> NoDup (all_cards s)))).
Proof.
  split.
  - intros s c. destruct (after_all_cards s c) as [Hperm _].
    split; [|exact Hperm]. rewrite !total_all_cards, Hperm. reflexivity.
  - intros shuffled Hlen.
    assert (forall s0 : Game, Solitaire_init shuffled = Return s0 ->
              all_cards s0 = shuffled /\ deck s0 = []) as Hinit.
    { intros s0 Hs0. apply setup_Return in Hs0 as (Hcards & Ht & Hw & Hst).
      assert (length (all_cards s0) = 52%nat) as Hall.
      { rewrite <- total_all_cards. unfold total. rewrite Ht, Hw, Hst.
        reflexivity. }
      assert (deck s0 = []) as Hdeck.
      { apply length_zero_iff_nil.
        apply (f_equal length) in Hcards. rewrite length_app in Hcards. lia. }
      rewrite Hdeck, app_nil_r in Hcards. auto. }
    split.
    + destruct (setup_enough columns cards_in_column shuffled) as [s0 Hs0].
      { rewrite Hlen. reflexivity. }
      exists s0. split; [exact Hs0|].
      destruct (Hinit s0 Hs0) as [Hall _]. rewrite total_all_cards, Hall. exact Hlen.
    + assert (forall s : Game, reachable shuffled s ->
                all_cards s ≡ₚ shuffled /\ deck s = []) as Hreach.
      { intros s Hs. induction Hs as [s Hs|s c Hs [IHperm IHdeck]].
        - destruct (Hinit s Hs) as [-> ->]. split; reflexivity.
        - destruct (after_all_cards s c) as [Hperm Hdeck].
          rewrite Hperm, Hdeck. auto. }
      intros s Hs. destruct (Hreach s Hs) as [Hperm Hdeck].
      split; [|split; [exact Hperm | split; [exact Hdeck|]]].
      * rewrite total_all_cards, Hperm. exact Hlen.
      * intros Hnodup. rewrite Hperm. exact Hnodup.
Qed.

(** ** The waste pile *)

Lemma has_lost_from_Return (s : Game) (cols : list (list Card)) :
  (forall card, can_move s card = Return true \/ can_move s card = Return false) ->
  exists v, has_lost_from s cols = Return v.
Proof.
  intros Hmove. induction cols as [|element cols IH]; simpl; [eauto|].
  destruct (last element) as [c|]; [|exact IH].
  destruct (Hmove c) as [-> | ->]; simpl; eauto.
Qed.

(** C10.  [__init__] leaves exactly one card on the waste pile; every call
    leaves the waste pile as it is or puts one card on top of it; so in
    every state of a game the waste pile is not empty, and there [can_move]
    returns true or false for every card and [has_lost] returns too: the
    access to the topmost waste card raises nothing. *)
Theorem waste_never_empty :
  (forall (shuffled : list Card) (s : Game),
     Solitaire_init shuffled = Return s -> length (waste s) = 1%nat) /\
  (forall (s : Game) (c : Call),
     waste (after s c) = waste s \/
     exists x, waste (after s c) = waste s ++ [x]) /\
  (forall (shuffled : list Card) (s : Game),
     reachable shuffled s ->
     waste s <> [] /\
     (forall card, can_move s card = Return true \/ can_move s card = Return false) /\
     (exists v, has_lost s = Return v)).
Proof.
  split; [|split].
  - intros shuffled s Hs. apply setup_Return in Hs as (_ & _ & Hw & _). exact Hw.
  - exact after_waste.
  - intros shuffled s Hs.
    assert (waste s <> []) as Hw.
    { induction Hs as [s Hs|s c Hs IH].
      - apply setup_Return in Hs as (_ & _ & Hw & _).
        intros Hnil. rewrite Hnil in Hw. discriminate.
      - destruct (after_waste s c) as [-> | [x ->]]; [exact IH|].
        intros Hnil. apply app_eq_nil in Hnil as [_ Hnil]. discriminate. }
    assert (forall card, can_move s card = Return true \/ can_move s card = Return false)
      as Hmove.
    { intros card. apply last_is_Some in Hw as [top Htop].
      exact (proj2 (can_move_from_spec (tableau s) _ card top Htop)). }
    split; [exact Hw | split; [exact Hmove|]].
    unfold has_lost. destruct (stock s); [|eauto].
    apply has_lost_from_Return. exact Hmove.
Qed.

(** ** The losing position *)

(** While cards are left in the stock [has_lost] reaches the end of its
    body. *)
Lemma has_lost_with_stock (s : Game) :
  stock s <> [] -> has_lost s = Return PyNone.
Proof. unfold has_lost. destruct (stock s); [contradiction | reflexivity]. Qed.

End SolitaireProperties.

(** ** The theorems at concrete games *)

Section SolitaireExamples.

Import Solitaire.

(** C2, on the code.  In the game dealt from [stuck_deck] the stock has 44
    cards and no last card of a column can be moved; [has_lost] returns
    [None] there, which is not [False], though it tests as false. *)
Theorem has_lost_returns_None_with_stock :
  length (stock (start_of stuck_deck)) = 44%nat /\
  Solitaire_init stuck_deck = Return (start_of stuck_deck) /\
  Forall (fun column =>
            exists c, last column = Some c /\
                      can_move (start_of stuck_deck) c = Return false)
         (tableau (start_of stuck_deck)) /\
  has_lost (start_of stuck_deck) = Return PyNone /\
  has_lost (start_of stuck_deck) <> Return (PyBool false) /\
  truth PyNone = false.
Proof.
  split; [vm_compute; reflexivity|].
  split; [vm_compute; reflexivity|].
  split.
  { change (tableau (start_of stuck_deck))
      with [[(1, Clubs)]; [(3, Clubs)]; [(5, Clubs)]; [(7, Clubs)];
            [(9, Clubs)]; [(11, Clubs)]; [(13, Clubs)]].
    repeat constructor; eexists; (split; [reflexivity | vm_compute; reflexivity]). }
  split; [vm_compute; reflexivity|].
  split; [vm_compute; discriminate | reflexivity].
Qed.

(** Dealing from the stock of [seven_on_waste]. *)
Lemma deal_from_stock_moves_last_or_nothing_witness :
  deal_from_stock seven_on_waste =
    {| deck := [];
       tableau := [[(10, Hearts); (6, Clubs)]; [(8, Hearts)]; [(2, Spades)]];
       stock := [(4, Diamonds)];
       waste := [(3, Hearts); (7, Diamonds)] ++ [(12, Clubs)] |}.
Proof.
  apply (proj1 deal_from_stock_moves_last_or_nothing
           seven_on_waste [(4, Diamonds)] (12, Clubs)).
  reflexivity.
Defined.

(** The 6 and the 8 can be moved onto the 7, the 2 cannot. *)
Lemma can_move_iff_exposed_and_adjacent_witness :
  can_move seven_on_waste (6, Clubs) = Return true /\
  can_move seven_on_waste (8, Hearts) = Return true /\
  can_move seven_on_waste (2, Spades) = Return false.
Proof.
  apply (proj2 (proj2 (proj2 can_move_iff_exposed_and_adjacent))
           seven_on_waste (6, Clubs) (8, Hearts) (2, Spades) (7, Diamonds)
           [(10, Hearts)] [] [] [(3, Hearts)]); reflexivity.
Defined.

(** The game dealt from the deck in its order of suits and ranks. *)
Lemma cards_conserved_witness :
  exists s0 : Solitaire,
    Solitaire_init full_deck = Return s0 /\ total s0 = 52%nat.
Proof.
  apply (proj1 (proj2 cards_conserved full_deck eq_refl)).
Defined.

(** The waste pile of the game dealt from the deck in its order of suits
    and ranks. *)
Lemma waste_never_empty_witness :
  length (waste (start_of full_deck)) = 1%nat.
Proof.
  apply (proj1 waste_never_empty full_deck (start_of full_deck)).
  vm_compute. reflexivity.
Defined.

End SolitaireExamples.

(** * More on the Blackjack engine *)

Section HandProperties.

Import Blackjack.

(** The thirteen values lie between 2 and 11, and 11 is the ace's. *)
Lemma card_values_range (x : string) (v : Z) :
  card_values !! x = Some v -> 2 <= v <= 11.
Proof.
  unfold card_values. intros Hv. apply elem_of_list_to_map_2 in Hv.
  repeat (apply elem_of_cons in Hv as [Hv|Hv]; [injection Hv as -> ->; lia|]).
  inversion Hv.
Qed.

Lemma add_card_hand_counts (c : Card) (h h' : Hand) (S A : Z) :
  hand_counts h S A -> add_card c h = Return h' ->
  hand_counts h' (S + value_of c) (A + ace_count c).
Proof.
  intros (k & Hk & Hs & Ha & Hturns & Hexit) Hadd.
  destruct (add_card_spec _ _ _ Hadd)
    as (v & k' & Hv & Hk' & Hs' & Ha' & _ & Hturns' & Hexit').
  pose proof (card_values_range _ _ Hv) as Hrange.
  pose proof (ace_count_nonneg c) as Hace.
  assert (value_of c = v) as -> by (unfold value_of; rewrite Hv; reflexivity).
  assert (k' <= aces h + ace_count c) as Hle.
  { destruct (decide (k' = 0)) as [->|Hne]; [lia|].
    specialize (Hturns' (k' - 1)). lia. }
  exists (k + k'). split; [lia|]. split; [lia|]. split; [lia|]. split.
  - intros j Hj. destruct (decide (j < k)) as [Hlt|Hge].
    + specialize (Hturns j). lia.
    + specialize (Hturns' (j - k)). lia.
  - replace (S + v - 10 * (k + k')) with (score h') by lia.
    replace (A + ace_count c - (k + k')) with (aces h') by lia.
    exact Hexit'.
Qed.

Lemma add_cards_hand_counts (cs : list Card) :
  forall (h h' : Hand) (S A : Z),
    hand_counts h S A -> add_cards cs h = Return h' ->
    hand_counts h' (S + face_total cs) (A + ace_total cs) /\
    cards h' = cards h ++ cs /\ Forall valid_card cs.
Proof.
  induction cs as [|c cs IH]; intros h h' S A Hh Hadd; simpl in Hadd.
  - injection Hadd as <-. simpl. rewrite !Z.add_0_r, app_nil_r. auto.
  - apply bind_Return in Hadd as (h1 & H1 & Hrest).
    destruct (IH h1 h' _ _ (add_card_hand_counts _ _ _ _ _ Hh H1) Hrest)
      as (Hcounts & Hcards & Hvalid).
    split; [|split].
    + simpl. replace (S + (value_of c + face_total cs))
        with (S + value_of c + face_total cs) by lia.
      replace (A + (ace_count c + ace_total cs))
        with (A + ace_count c + ace_total cs) by lia.
      exact Hcounts.
    + rewrite Hcards.
      destruct (add_card_spec _ _ _ H1) as (_ & _ & _ & _ & _ & _ & -> & _).
      rewrite <- app_assoc. reflexivity.
    + constructor; [|exact Hvalid].
      destruct (add_card_Return _ _ _ H1) as [v Hv]. exists v. exact Hv.
Qed.

Lemma hand_counts_init : hand_counts Hand_init 0 0.
Proof. exists 0. simpl. repeat split; lia. Qed.

(** The number of downgrades is fixed by the total and the number of
    aces. *)
Lemma hand_counts_downgrades (h : Hand) (S A : Z) :
  hand_counts h S A ->
  score h = S - 10 * downgrades S A /\ aces h = A - downgrades S A.
Proof.
  intros (k & Hk & Hs & Ha & Hturns & Hexit).
  assert (k = downgrades S A) as <-; [|auto].
  unfold downgrades.
  pose proof (Z.div_mod (S - 12) 10 ltac:(lia)) as Hdiv.
  pose proof (Z.mod_pos_bound (S - 12) 10 ltac:(lia)) as Hmod.
  destruct (decide (k = 0)) as [->|Hne].
  - lia.
  - specialize (Hturns (k - 1)). lia.
Qed.

Lemma add_cards_total (cs : list Card) :
  forall h : Hand, Forall valid_card cs -> exists h', add_cards cs h = Return h'.
Proof.
  induction cs as [|c cs IH]; intros h Hvalid; simpl; [eauto|].
  apply Forall_cons in Hvalid as [Hc Hcs].
  destruct (add_card_total c h Hc) as [h1 ->]. simpl. apply IH. exact Hcs.
Qed.

Lemma face_total_Permutation (cs cs' : list Card) :
  cs ≡ₚ cs' -> face_total cs = face_total cs' /\ ace_total cs = ace_total cs'.
Proof.
  induction 1 as [|c l l' _ [IH1 IH2]|c c' l|l l' l'' _ [IH1 IH2] _ [IH3 IH4]];
    simpl; split; lia.
Qed.

(** X1.  Adding valid cards to [Hand()] returns a hand that holds these
    cards in their order; its score is their total with every ace at 11,
    less 10 for each of [downgrades] aces, and [aces] is the number of the
    other aces. *)
Theorem hand_score_closed_form (cs : list Card) :
  Forall valid_card cs ->
  exists h : Hand,
    add_cards cs Hand_init = Return h /\
    cards h = cs /\
    score h = face_total cs - 10 * downgrades (face_total cs) (ace_total cs) /\
    aces h = ace_total cs - downgrades (face_total cs) (ace_total cs).
Proof.
  intros Hvalid. destruct (add_cards_total cs Hand_init Hvalid) as [h Hadd].
  exists h. split; [exact Hadd|].
  destruct (add_cards_hand_counts cs _ _ 0 0 hand_counts_init Hadd)
    as (Hcounts & Hcards & _).
  split; [exact Hcards|]. simpl in Hcounts.
  exact (hand_counts_downgrades _ _ _ Hcounts).
Qed.

(** X2.  The score and the count of soft aces of a hand do not depend on
    the order in which its cards were added. *)
Theorem hand_score_order_independent (cs cs' : list Card) (h : Hand) :
  cs ≡ₚ cs' ->
  add_cards cs Hand_init = Return h ->
  exists h' : Hand,
    add_cards cs' Hand_init = Return h' /\
    score h' = score h /\ aces h' = aces h.
Proof.
  intros Hperm Hadd.
  destruct (add_cards_hand_counts cs _ _ 0 0 hand_counts_init Hadd)
    as (Hcounts & _ & Hvalid).
  rewrite Hperm in Hvalid.
  destruct (add_cards_total cs' Hand_init Hvalid) as [h' Hadd'].
  exists h'. split; [exact Hadd'|].
  destruct (add_cards_hand_counts cs' _ _ 0 0 hand_counts_init Hadd')
    as (Hcounts' & _ & _).
  apply hand_counts_downgrades in Hcounts as [Hs Ha].
  apply hand_counts_downgrades in Hcounts' as [Hs' Ha'].
  destruct (face_total_Permutation _ _ Hperm) as [Hf Hac].
  simpl in *. rewrite Hs, Ha, Hs', Ha', Hf, Hac. split; reflexivity.
Qed.

(** X3.  A hand built from [Hand()] is bust, its score above 21, exactly
    when its cards exceed 21 even with every ace at 1. *)
Theorem hand_bust_iff_hard_total (cs : list Card) (h : Hand) :
  add_cards cs Hand_init = Return h ->
  (21 < score h <-> 21 < face_total cs - 10 * ace_total cs).
Proof.
  intros Hadd.
  destruct (add_cards_hand_counts cs _ _ 0 0 hand_counts_init Hadd)
    as ((k & Hk & Hs & Ha & _ & Hexit) & _ & _).
  simpl in *. lia.
Qed.

End HandProperties.

Section RoundProperties.

Import Blackjack.

(** The ways a round can return, one goal for each [Return] of
    [BlackjackController]. *)
Ltac round_cases Hrun :=
  unfold BlackjackController in Hrun;
  apply bind_Return in Hrun as ([[?p0 ?d0] ?deck1] & ?Hfirst & Hrun);
  simpl in Hrun;
  destruct (score _ =? 21) eqn:?Ep0 in Hrun;
  [ injection Hrun as <-
  | apply bind_Return in Hrun as ([[[?p1 ?deck2] ?inputs'] ?asks] & ?Hpm & Hrun);
    simpl in Hrun;
    destruct (score _ =? 21) eqn:?Ep1 in Hrun;
    [ injection Hrun as <-
    | destruct (score _ >? 21) eqn:?Ebust in Hrun;
      [ injection Hrun as <-
      | destruct (score _ =? 21) eqn:?Ed0 in Hrun;
        [ injection Hrun as <-
        | apply bind_Return in Hrun as ([?d1 ?deck3] & ?Hdm & Hrun);
          simpl in Hrun;
          destruct (score _ >? 22) eqn:?Ed1 in Hrun;
          [ injection Hrun as <-
          | destruct (score _ >? score _) eqn:?Ecmp in Hrun;
            injection Hrun as <- ] ] ] ] ].

Lemma outcome_single (st : State) (dk : Deck) (ins : list string) (st' : State) :
  outcome (mkRound st dk ins [player_won st']) = Some PLAYER_WON.
Proof. reflexivity. Qed.

(** X4.  The outcome of a round is a function of the two final scores: the
    player wins with exactly 21, loses above 21, and below 21 wins against a
    dealer above 22, loses against a dealer who has more, and gets no
    verdict otherwise. *)
Theorem round_outcome_by_final_scores (deck : Deck) (inputs : list string)
    (r : Round) :
  BlackjackController deck inputs = Return r ->
  outcome r = verdict (score (player (state r))) (score (dealer (state r))).
Proof.
  intros Hrun. round_cases Hrun; unfold verdict; simpl.
  - rewrite Ep0. reflexivity.
  - rewrite Ep1. apply outcome_snoc_won.
  - rewrite Ep1, Ebust. apply outcome_snoc_lost.
  - rewrite Ep1, Ebust. rewrite outcome_snoc_lost.
    apply Z.eqb_eq in Ed0. apply Z.eqb_neq in Ep1.
    destruct (Z.gtb_spec (score p1) 21); [discriminate|].
    rewrite Ed0.
    destruct (Z.gtb_spec 21 22); [lia|].
    destruct (Z.gtb_spec 21 (score p1)); [reflexivity | lia].
  - rewrite Ep1, Ebust, Ed1. apply outcome_snoc_won.
  - rewrite Ep1, Ebust, Ed1, Ecmp. apply outcome_snoc_lost.
  - rewrite Ep1, Ebust, Ed1, Ecmp. apply outcome_asks.
    eapply player_moves_asks. exact Hpm.
Qed.

(** X5.  A round ends without a verdict exactly when the two final scores
    are equal and below 21: the dealer has drawn level with the player. *)
Theorem round_without_verdict_iff_tie (deck : Deck) (inputs : list string)
    (r : Round) :
  BlackjackController deck inputs = Return r ->
  (outcome r = None <->
     score (dealer (state r)) = score (player (state r)) /\
     score (player (state r)) < 21).
Proof.
  intros Hrun. round_cases Hrun; simpl.
  - rewrite outcome_single. apply Z.eqb_eq in Ep0. split; [discriminate | lia].
  - rewrite outcome_snoc_won. apply Z.eqb_eq in Ep1. split; [discriminate | lia].
  - rewrite outcome_snoc_lost. apply Z.gtb_lt in Ebust.
    split; [discriminate | lia].
  - rewrite outcome_snoc_lost. apply Z.eqb_eq in Ed0.
    split; [discriminate | lia].
  - rewrite outcome_snoc_won. apply Z.gtb_lt in Ed1.
    split; [discriminate | lia].
  - rewrite outcome_snoc_lost. apply Z.gtb_lt in Ecmp.
    split; [discriminate | lia].
  - rewrite outcome_asks by (eapply player_moves_asks; exact Hpm).
    apply dealer_moves_score in Hdm. apply Z.eqb_neq in Ep1.
    destruct (Z.gtb_spec (score p1) 21); [discriminate|].
    destruct (Z.gtb_spec (score d1) (score p1)); [discriminate|].
    split; [intros _; lia | reflexivity].
Qed.

(** ** Cards and answers used by a round *)

Lemma add_cards_app (l1 l2 : list Card) :
  forall h : Hand, add_cards (l1 ++ l2) h = add_cards l1 h ≫= add_cards l2.
Proof.
  induction l1 as [|c l1 IH]; intros h; simpl; [reflexivity|].
  destruct (add_card c h) as [e|h1]; simpl; [reflexivity | apply IH].
Qed.

Lemma draw_pair_Return (deck : Deck) (p d p' d' : Hand) (deck' : Deck) :
  draw_pair deck p d = Return (p', d', deck') ->
  exists c1 c2,
    deck = c1 :: c2 :: deck' /\
    add_card c1 p = Return p' /\ add_card c2 d = Return d'.
Proof.
  unfold draw_pair. intros Hpair.
  destruct deck as [|c1 deck]; [discriminate|]. simpl in Hpair.
  apply bind_Return in Hpair as (p1 & Hp & Hpair).
  destruct deck as [|c2 deck]; [discriminate|]. simpl in Hpair.
  apply bind_Return in Hpair as (d1 & Hd & Hpair).
  injection Hpair as <- <- <-. eauto.
Qed.

Lemma draw_first_cards_Return (deck : Deck) (p0 d0 : Hand) (deck1 : Deck) :
  draw_first_cards deck Hand_init Hand_init = Return (p0, d0, deck1) ->
  exists c1 c2 c3 c4,
    deck = c1 :: c2 :: c3 :: c4 :: deck1 /\
    add_cards [c1; c3] Hand_init = Return p0 /\
    add_cards [c2; c4] Hand_init = Return d0.
Proof.
  unfold draw_first_cards. intros Hfirst.
  apply bind_Return in Hfirst as ([[p d] dk] & Hone & Htwo).
  apply draw_pair_Return in Hone as (c1 & c2 & -> & Hp & Hd).
  apply draw_pair_Return in Htwo as (c3 & c4 & -> & Hp' & Hd').
  exists c1, c2, c3, c4. simpl. rewrite Hp, Hd. simpl. rewrite Hp', Hd'. auto.
Qed.

(** X6.  When the player's turn returns, the answers used are one ["H"]
    for every card drawn, followed by one other answer unless the turn has
    ended at 21 or more; the cards drawn are the next ones of the deck, in
    their order, and all went to the player's hand; the view has been asked
    once for every answer used, each time with the dealer's hand unchanged
    and a player's score below 21. *)
Theorem player_turn_answers_and_cards (inputs : list string) :
  forall (deck : Deck) (p d p1 : Hand) (deck2 : Deck) (inputs' : list string)
         (asks : list ViewCall),
    player_moves inputs deck p d = Return (p1, deck2, inputs', asks) ->
    exists (hits : list Card) (last_answer : list string),
      inputs = replicate (length hits) "H"%string ++ last_answer ++ inputs' /\
      deck = hits ++ deck2 /\
      add_cards hits p = Return p1 /\
      length asks = (length hits + length last_answer)%nat /\
      Forall (fun c => exists p',
                c = ask_next_move {| dealer := d; player := p' |} /\
                score p' < 21) asks /\
      ((last_answer = [] /\ 21 <= score p1) \/
       (exists a, last_answer = [a] /\ a <> "H"%string /\ score p1 < 21)).
Proof.
  induction inputs as [|answer inputs IH];
    intros deck p d p1 deck2 inputs' asks Hpm; simpl in Hpm;
    destruct (Z.ltb_spec (score p) 21) as [Hlt|Hge].
  - discriminate.
  - injection Hpm as <- <- <- <-. exists [], []. simpl. repeat split; auto.
  - destruct (String.eqb_spec answer "H") as [->|Hne].
    + apply bind_Return in Hpm as ([card dk] & Hdraw & Hpm).
      destruct deck as [|c deck]; [discriminate|]. injection Hdraw as -> ->.
      apply bind_Return in Hpm as (p' & Hadd & Hpm).
      apply bind_Return in Hpm as ([[[p2 dk2] ins2] calls2] & Hrec & Hpm).
      injection Hpm as <- <- <- <-.
      destruct (IH _ _ _ _ _ _ _ Hrec)
        as (hits & last_answer & -> & -> & Hhits & Hlen & Hasks & Hend).
      exists (card :: hits), last_answer. simpl. rewrite Hadd. simpl.
      repeat split; auto.
      constructor; [|exact Hasks]. eauto.
    + injection Hpm as <- <- <- <-. exists [], [answer]. simpl.
      repeat split; auto.
      * repeat constructor. eauto.
      * right. eauto.
  - injection Hpm as <- <- <- <-. exists [], []. simpl. repeat split; auto.
Qed.

Lemma player_moves_cards (inputs : list string) (deck : Deck) (p d p1 : Hand)
    (deck2 : Deck) (inputs' : list string) (asks : list ViewCall) :
  player_moves inputs deck p d = Return (p1, deck2, inputs', asks) ->
  exists (hits : list Card) (used : list string),
    deck = hits ++ deck2 /\ add_cards hits p = Return p1 /\
    inputs = used ++ inputs' /\ length asks = length used.
Proof.
  revert deck p d p1 deck2 inputs' asks.
  induction inputs as [|answer inputs IH];
    intros deck p d p1 deck2 inputs' asks Hpm; simpl in Hpm;
    destruct (score p <? 21).
  - discriminate.
  - injection Hpm as <- <- <- <-. exists [], []. auto.
  - destruct (String.eqb answer "H").
    + apply bind_Return in Hpm as ([card dk] & Hdraw & Hpm).
      destruct deck as [|c deck]; [discriminate|]. injection Hdraw as -> ->.
      apply bind_Return in Hpm as (p' & Hadd & Hpm).
      apply bind_Return in Hpm as ([[[p2 dk2] ins2] calls2] & Hrec & Hpm).
      injection Hpm as <- <- <- <-.
      destruct (IH _ _ _ _ _ _ _ Hrec) as (hits & used & -> & Hhits & -> & Hlen).
      exists (card :: hits), (answer :: used). simpl. rewrite Hadd. simpl. auto.
    + injection Hpm as <- <- <- <-. exists [], [answer]. auto.
  - injection Hpm as <- <- <- <-. exists [], []. auto.
Qed.

Lemma dealer_moves_cards (deck : Deck) :
  forall (d p d' : Hand) (deck' : Deck),
    dealer_moves deck d p = Return (d', deck') ->
    exists draws : list Card,
      deck = draws ++ deck' /\ add_cards draws d = Return d'.
Proof.
  induction deck as [|c deck IH]; intros d p d' deck' Hdm; simpl in Hdm;
    destruct (score d <? score p).
  - discriminate.
  - injection Hdm as <- <-. exists []. auto.
  - apply bind_Return in Hdm as (d1 & Hadd & Hrec).
    destruct (IH _ _ _ _ Hrec) as (draws & -> & Hdraws).
    exists (c :: draws). simpl. rewrite Hadd. auto.
  - injection Hdm as <- <-. exists []. auto.
Qed.

(** X7.  A round that returns has taken its cards off the front of the
    deck and lost none: the first and third card and then the player's hits
    make the player's hand, the second and fourth card and then the
    dealer's draws make the dealer's hand, and the rest of the deck is what
    is left. *)
Theorem round_cards_accounted (deck : Deck) (inputs : list string) (r : Round) :
  BlackjackController deck inputs = Return r ->
  exists (c1 c2 c3 c4 : Card) (hits draws : list Card),
    deck = c1 :: c2 :: c3 :: c4 :: hits ++ draws ++ deck_left r /\
    add_cards (c1 :: c3 :: hits) Hand_init = Return (player (state r)) /\
    add_cards (c2 :: c4 :: draws) Hand_init = Return (dealer (state r)).
Proof.
  intros Hrun. round_cases Hrun; cbn [state player dealer deck_left];
    apply draw_first_cards_Return in Hfirst as (c1 & c2 & c3 & c4 & -> & Hp0 & Hd0);
    exists c1, c2, c3, c4.
  - exists [], []. auto.
  - apply player_moves_cards in Hpm as (hits & used & -> & Hhits & _).
    exists hits, []. change (c1 :: c3 :: hits) with ([c1; c3] ++ hits).
    rewrite add_cards_app, Hp0. auto.
  - apply player_moves_cards in Hpm as (hits & used & -> & Hhits & _).
    exists hits, []. change (c1 :: c3 :: hits) with ([c1; c3] ++ hits).
    rewrite add_cards_app, Hp0. auto.
  - apply player_moves_cards in Hpm as (hits & used & -> & Hhits & _).
    exists hits, []. change (c1 :: c3 :: hits) with ([c1; c3] ++ hits).
    rewrite add_cards_app, Hp0. auto.
  - apply player_moves_cards in Hpm as (hits & used & -> & Hhits & _).
    apply dealer_moves_cards in Hdm as (draws & -> & Hdraws).
    exists hits, draws. change (c1 :: c3 :: hits) with ([c1; c3] ++ hits).
    change (c2 :: c4 :: draws) with ([c2; c4] ++ draws).
    rewrite !add_cards_app, Hp0, Hd0. auto.
  - apply player_moves_cards in Hpm as (hits & used & -> & Hhits & _).
    apply dealer_moves_cards in Hdm as (draws & -> & Hdraws).
    exists hits, draws. change (c1 :: c3 :: hits) with ([c1; c3] ++ hits).
    change (c2 :: c4 :: draws) with ([c2; c4] ++ draws).
    rewrite !add_cards_app, Hp0, Hd0. auto.
  - apply player_moves_cards in Hpm as (hits & used & -> & Hhits & _).
    apply dealer_moves_cards in Hdm as (draws & -> & Hdraws).
    exists hits, draws. change (c1 :: c3 :: hits) with ([c1; c3] ++ hits).
    change (c2 :: c4 :: draws) with ([c2; c4] ++ draws).
    rewrite !add_cards_app, Hp0, Hd0. auto.
Qed.

(** X8.  In a round that returns, the calls on the view are one
    [ask_next_move] for every answer used and then at most one verdict,
    which carries the final state. *)
Theorem round_view_calls (deck : Deck) (inputs : list string) (r : Round) :
  BlackjackController deck inputs = Return r ->
  exists (used : list string) (asks final : list ViewCall),
    inputs = used ++ inputs_left r /\
    view_calls r = asks ++ final /\
    Forall (fun c => is_ask c = true) asks /\
    length asks = length used /\
    decisions r = length used /\
    (final = [] \/ final = [player_won (state r)] \/
     final = [player_lost (state r)]).
Proof.
  assert (forall asks final,
            Forall (fun c => is_ask c = true) asks ->
            (final = [] \/ (exists st, final = [player_won st]) \/
             (exists st, final = [player_lost st])) ->
            length (List.filter is_ask (asks ++ final)) = length asks) as Hcount.
  { intros asks final Hasks Hfinal. rewrite List.filter_app, length_app.
    assert (List.filter is_ask asks = asks) as ->.
    { induction Hasks as [|c l Hc _ IH]; simpl; [reflexivity|].
      rewrite Hc, IH. reflexivity. }
    destruct Hfinal as [->|[[st ->]|[st ->]]]; simpl; lia. }
  intros Hrun. round_cases Hrun; unfold decisions; simpl.
  - exists [], [], [player_won {| dealer := d0; player := p0 |}].
    repeat split; auto.
  - pose proof (player_moves_asks _ _ _ _ _ _ _ _ Hpm) as Hasks.
    apply player_moves_cards in Hpm as (hits & used & _ & _ & -> & Hlen).
    exists used, asks, [player_won {| dealer := d0; player := p1 |}].
    rewrite Hcount by eauto. repeat split; auto.
  - pose proof (player_moves_asks _ _ _ _ _ _ _ _ Hpm) as Hasks.
    apply player_moves_cards in Hpm as (hits & used & _ & _ & -> & Hlen).
    exists used, asks, [player_lost {| dealer := d0; player := p1 |}].
    rewrite Hcount by eauto. repeat split; auto.
  - pose proof (player_moves_asks _ _ _ _ _ _ _ _ Hpm) as Hasks.
    apply player_moves_cards in Hpm as (hits & used & _ & _ & -> & Hlen).
    exists used, asks, [player_lost {| dealer := d0; player := p1 |}].
    rewrite Hcount by eauto. repeat split; auto.
  - pose proof (player_moves_asks _ _ _ _ _ _ _ _ Hpm) as Hasks.
    apply player_moves_cards in Hpm as (hits & used & _ & _ & -> & Hlen).
    exists used, asks, [player_won {| dealer := d1; player := p1 |}].
    rewrite Hcount by eauto. repeat split; auto.
  - pose proof (player_moves_asks _ _ _ _ _ _ _ _ Hpm) as Hasks.
    apply player_moves_cards in Hpm as (hits & used & _ & _ & -> & Hlen).
    exists used, asks, [player_lost {| dealer := d1; player := p1 |}].
    rewrite Hcount by eauto. repeat split; auto.
  - pose proof (player_moves_asks _ _ _ _ _ _ _ _ Hpm) as Hasks.
    apply player_moves_cards in Hpm as (hits & used & _ & _ & -> & Hlen).
    exists used, asks, [].
    pose proof (Hcount asks [] Hasks (or_introl eq_refl)) as Hc.
    rewrite app_nil_r in Hc. rewrite app_nil_r, Hc.
    repeat split; auto.
Qed.

(** X9.  A deck of fewer than four cards does not start a round: the
    controller raises, and with valid cards what it raises is the
    [IndexError] of a draw from the empty deck. *)
Theorem round_needs_four_cards (deck : Deck) (inputs : list string) :
  (length deck < 4)%nat ->
  (exists e, BlackjackController deck inputs = Raise e) /\
  (Forall valid_card deck -> BlackjackController deck inputs = Raise IndexError).
Proof.
  intros Hlen.
  assert (forall r, BlackjackController deck inputs <> Return r) as Hno.
  { intros r Hrun. unfold BlackjackController in Hrun.
    apply bind_Return in Hrun as ([[p0 d0] deck1] & Hfirst & _).
    apply draw_first_cards_Return in Hfirst as (c1 & c2 & c3 & c4 & -> & _).
    simpl in Hlen. lia. }
  split.
  - destruct (BlackjackController deck inputs) as [e|r] eqn:Hrun; [eauto|].
    exfalso. exact (Hno r eq_refl).
  - intros Hvalid. unfold BlackjackController, draw_first_cards, draw_pair.
    destruct deck as [|c1 deck]; [reflexivity|].
    apply Forall_cons in Hvalid as [H1 Hvalid].
    destruct (add_card_total c1 Hand_init H1) as [h1 Hadd1].
    simpl. rewrite Hadd1. simpl.
    destruct deck as [|c2 deck]; [reflexivity|].
    apply Forall_cons in Hvalid as [H2 Hvalid].
    destruct (add_card_total c2 Hand_init H2) as [h2 Hadd2].
    simpl. rewrite Hadd2. simpl.
    destruct deck as [|c3 deck]; [reflexivity|].
    apply Forall_cons in Hvalid as [H3 Hvalid].
    destruct (add_card_total c3 h1 H3) as [h3 Hadd3].
    simpl. rewrite Hadd3. simpl.
    destruct deck as [|c4 deck]; [reflexivity|].
    simpl in Hlen. lia.
Qed.

(** ** What the player is shown *)

Lemma string_append_assoc (a b c : string) :
  (a +:+ b) +:+ c = a +:+ (b +:+ c).
Proof.
  induction a as [|x a IH]; [reflexivity|].
  change (String x ((a +:+ b) +:+ c) = String x (a +:+ (b +:+ c))).
  rewrite IH. reflexivity.
Qed.

(** Every call of the player's turn passes the dealer's hand as it was
    dealt. *)
Lemma player_moves_asks_dealer (inputs : list string) :
  forall (deck : Deck) (p d p1 : Hand) (deck2 : Deck) (inputs' : list string)
         (asks : list ViewCall) (st : State),
    player_moves inputs deck p d = Return (p1, deck2, inputs', asks) ->
    ask_next_move st ∈ asks -> dealer st = d.
Proof.
  induction inputs as [|answer inputs IH];
    intros deck p d p1 deck2 inputs' asks st Hpm Hin; simpl in Hpm;
    destruct (score p <? 21).
  - discriminate.
  - injection Hpm as <- <- <- <-. inversion Hin.
  - destruct (String.eqb answer "H").
    + apply bind_Return in Hpm as ([card dk] & _ & Hpm).
      apply bind_Return in Hpm as (p' & _ & Hpm).
      apply bind_Return in Hpm as ([[[p2 dk2] ins2] calls2] & Hrec & Hpm).
      injection Hpm as <- <- <- <-.
      apply elem_of_cons in Hin as [Heq|Hin]; [injection Heq as ->; reflexivity|].
      eapply IH; eassumption.
    + injection Hpm as <- <- <- <-.
      apply elem_of_cons in Hin as [Heq|Hin]; [injection Heq as ->; reflexivity|].
      inversion Hin.
  - injection Hpm as <- <- <- <-. inversion Hin.
Qed.

(** X21.  Whenever a round asks the player for a decision, the dealer
    holds the second and the fourth card of the deck, and what
    [display_state] shows of the dealer before the verdict is ["??"] for
    the score and the code of the second card followed by ["??"] for the
    hand: the fourth card and the dealer's score are not shown. *)
Theorem hole_card_hidden_at_every_ask (deck : Deck) (inputs : list string)
    (r : Round) (st : State) :
  BlackjackController deck inputs = Return r ->
  ask_next_move st ∈ view_calls r ->
  exists (c1 c2 c3 c4 : Card) (rest : Deck),
    deck = c1 :: c2 :: c3 :: c4 :: rest /\
    cards (dealer st) = [c2; c4] /\
    dealer_score_shown (display_state st false) = inr "??"%string /\
    dealer_cards_shown (display_state st false)
      = inr ("[" +:+ code c2 +:+ ",??]").
Proof.
  intros Hrun Hin.
  assert (exists p0 d0 deck1 p1 deck2 inputs' asks,
            draw_first_cards deck Hand_init Hand_init = Return (p0, d0, deck1) /\
            player_moves inputs deck1 p0 d0 = Return (p1, deck2, inputs', asks) /\
            ask_next_move st ∈ asks) as Hask.
  { assert (forall asks final,
              (final = [] \/ (exists s, final = [player_won s]) \/
               (exists s, final = [player_lost s])) ->
              ask_next_move st ∈ asks ++ final -> ask_next_move st ∈ asks)
      as Hfinal.
    { intros asks final Hf Happ. apply elem_of_app in Happ as [Ha|Hb]; [exact Ha|].
      destruct Hf as [->|[[s ->]|[s ->]]];
        [inversion Hb | |];
        apply elem_of_cons in Hb as [Heq|Hb]; try discriminate; inversion Hb. }
    round_cases Hrun; cbn [view_calls] in Hin.
    - apply elem_of_cons in Hin as [Heq|Hin]; [discriminate | inversion Hin].
    - apply Hfinal in Hin; eauto 12.
    - apply Hfinal in Hin; eauto 12.
    - apply Hfinal in Hin; eauto 12.
    - apply Hfinal in Hin; eauto 12.
    - apply Hfinal in Hin; eauto 12.
    - eauto 12. }
  destruct Hask as (p0 & d0 & deck1 & p1 & deck2 & inputs' & asks & Hfirst & Hpm & Hin').
  apply (player_moves_asks_dealer _ _ _ _ _ _ _ _ _ Hpm) in Hin'.
  apply draw_first_cards_Return in Hfirst as (c1 & c2 & c3 & c4 & -> & _ & Hd0).
  destruct (add_cards_hand_counts _ _ _ 0 0 hand_counts_init Hd0) as (_ & Hcards & _).
  simpl in Hcards.
  exists c1, c2, c3, c4, deck1. split; [reflexivity|].
  rewrite Hin'. split; [exact Hcards|]. split; [reflexivity|].
  unfold display_state. simpl. rewrite Hin', Hcards. simpl.
  unfold Card_repr. rewrite string_append_assoc. reflexivity.
Qed.

End RoundProperties.

(** * More on the Golf Solitaire engine *)

Section GameProperties.

Import Solitaire.

Context {Card : Type} `{CardLike Card}.

Local Abbreviation Game := (@Solitaire Card).

(** ** Winning and losing *)

Lemma has_won_from_spec (cols : list (list Card)) :
  has_won_from cols = true <-> Forall (fun column => column = []) cols.
Proof.
  induction cols as [|element cols IH]; simpl.
  - split; [constructor | reflexivity].
  - destruct element as [|c element]; simpl.
    + rewrite IH. split; [intros Hall; constructor; auto|].
      intros Hall. apply Forall_cons in Hall as [_ Hall]. exact Hall.
    + split; [discriminate|]. intros Hall.
      apply Forall_cons in Hall as [Hnil _]. discriminate.
Qed.

(** X10.  [has_won] is true exactly when every column of the tableau is
    empty, whatever the waste pile and the stock hold; that is, when no
    card is left in the tableau. *)
Theorem has_won_iff_tableau_empty (s : Game) :
  (has_won s = true <-> Forall (fun column => column = []) (tableau s)) /\
  (has_won s = true <-> concat (tableau s) = []).
Proof.
  unfold has_won. split; [apply has_won_from_spec|].
  rewrite has_won_from_spec. induction (tableau s) as [|column t IH]; simpl.
  - split; [reflexivity | constructor].
  - rewrite Forall_cons, IH. split.
    + intros [-> ->]. reflexivity.
    + intros Happ. apply app_eq_nil in Happ. exact Happ.
Qed.

Lemma has_lost_from_spec (s : Game) (cols : list (list Card)) :
  (forall card, can_move s card = Return true \/ can_move s card = Return false) ->
  exists b : bool,
    has_lost_from s cols = Return (PyBool b) /\
    (b = true <->
     forall column c, column ∈ cols -> last column = Some c ->
                      can_move s c = Return false).
Proof.
  intros Hmove. induction cols as [|element cols (b & Hb & Hiff)]; simpl.
  - exists true. split; [reflexivity|]. split; [|reflexivity].
    intros _ column c Hin. inversion Hin.
  - destruct (last element) as [c|] eqn:Hlast.
    + destruct (Hmove c) as [Hc|Hc]; rewrite Hc; simpl.
      * exists false. split; [reflexivity|]. split; [discriminate|].
        intros Hall. specialize (Hall element c (list_elem_of_here _ _) Hlast).
        rewrite Hc in Hall. discriminate.
      * exists b. split; [exact Hb|]. rewrite Hiff. split.
        -- intros Hall column c' Hin Hl.
           apply elem_of_cons in Hin as [->|Hin]; [|eauto].
           rewrite Hlast in Hl. injection Hl as <-. exact Hc.
        -- intros Hall column c' Hin. apply Hall. right. exact Hin.
    + exists b. split; [exact Hb|]. rewrite Hiff. split.
      * intros Hall column c' Hin Hl.
        apply elem_of_cons in Hin as [->|Hin]; [|eauto].
        rewrite Hlast in Hl. discriminate.
      * intros Hall column c' Hin. apply Hall. right. exact Hin.
Qed.

Lemma can_move_exposed (s : Game) (card top : Card) :
  last (waste s) = Some top -> exposed s card ->
  (can_move s card = Return false <-> Z.abs (rank top - rank card) <> 1).
Proof.
  intros Hw Hexp.
  destruct (can_move_from_spec (tableau s) _ card top Hw) as [Hiff Hval].
  fold (can_move s card) in Hiff, Hval. split.
  - intros Hfalse Hadj.
    assert (can_move s card = Return true) as Htrue by (apply Hiff; auto).
    rewrite Hfalse in Htrue. discriminate.
  - intros Hadj. destruct Hval as [Htrue|Hfalse]; [|exact Hfalse].
    apply Hiff in Htrue as [_ Hadj']. contradiction.
Qed.

(** X11.  With an empty stock and the card [top] on the waste pile,
    [has_lost] returns [True] or [False]: [True] exactly when no column ends
    in a card whose rank is 1 away from the rank of [top]. *)
Theorem has_lost_with_empty_stock (s : Game) (top : Card) :
  stock s = [] -> last (waste s) = Some top ->
  exists b : bool,
    has_lost s = Return (PyBool b) /\
    (b = true <->
     forall card, exposed s card -> Z.abs (rank top - rank card) <> 1).
Proof.
  intros Hstock Hw. unfold has_lost. rewrite Hstock.
  destruct (has_lost_from_spec s (tableau s)) as (b & Hb & Hiff).
  { intros card. exact (proj2 (can_move_from_spec (tableau s) _ card top Hw)). }
  exists b. split; [exact Hb|]. rewrite Hiff. split.
  - intros Hall card (column & Hin & Hlast).
    apply (can_move_exposed s card top Hw); [exists column; auto|]. eauto.
  - intros Hall column c Hin Hlast.
    apply (can_move_exposed s c top Hw); [exists column; auto|].
    apply Hall. exists column. auto.
Qed.

(** X12.  A game that is won with an empty stock is a losing position for
    [has_lost] too: it returns [True], on any waste pile.  ([play] asks
    [has_won] first.) *)
Theorem won_game_with_empty_stock_has_lost (s : Game) :
  has_won s = true -> stock s = [] -> has_lost s = Return (PyBool true).
Proof.
  intros Hwon Hstock. unfold has_lost. rewrite Hstock.
  apply has_won_from_spec in Hwon. fold (has_won s) in *.
  induction Hwon as [|column t -> _ IH]; simpl; [reflexivity | exact IH].
Qed.

(** ** The empty waste pile *)

(** X13.  On a game with an empty waste pile [can_move] raises
    [IndexError] for a card that is the last of a column, and returns
    [False] for every other card. *)
Theorem can_move_on_empty_waste (s : Game) (card : Card) :
  waste s = [] ->
  (exposed s card -> can_move s card = Raise IndexError) /\
  (~ exposed s card -> can_move s card = Return false).
Proof.
  intros Hw. unfold can_move, exposed. rewrite Hw.
  induction (tableau s) as [|column t [IHyes IHno]]; simpl.
  - split; [|reflexivity]. intros (column & Hin & _). inversion Hin.
  - destruct (last column) as [c|] eqn:Hlast.
    + case_bool_decide as Hc.
      * subst c. split; [reflexivity|]. intros Hno. exfalso. apply Hno.
        exists column. split; [left | exact Hlast].
      * split.
        -- intros (column' & Hin & Hl). apply IHyes.
           apply elem_of_cons in Hin as [->|Hin]; [congruence | eauto].
        -- intros Hno. apply IHno. intros (column' & Hin & Hl). apply Hno.
           exists column'. split; [right; exact Hin | exact Hl].
    + split.
      * intros (column' & Hin & Hl). apply IHyes.
        apply elem_of_cons in Hin as [->|Hin]; [congruence | eauto].
      * intros Hno. apply IHno. intros (column' & Hin & Hl). apply Hno.
        exists column'. split; [right; exact Hin | exact Hl].
Qed.

(** ** Moving and dealing *)

(** X14.  [move_card] takes a column index as Python does: an index
    outside of [-len .. len-1] raises [IndexError], a negative index counts
    from the last column, and on a column in range the call raises
    [IndexError] when the column is empty and otherwise moves its last card
    to the end of the waste pile, leaving every other column, the stock and
    the deck as they were. *)
Theorem move_card_by_index (s : Game) (col : Z) :
  (col < - Z.of_nat (length (tableau s)) \/ Z.of_nat (length (tableau s)) <= col ->
   move_card s col = Raise IndexError) /\
  (- Z.of_nat (length (tableau s)) <= col < 0 ->
   move_card s col = move_card s (col + Z.of_nat (length (tableau s)))) /\
  (forall column : list Card,
     0 <= col -> tableau s !! Z.to_nat col = Some column ->
     (column = [] -> move_card s col = Raise IndexError) /\
     (forall l c, column = l ++ [c] ->
        move_card s col =
          Return {| deck := deck s;
                    tableau := <[Z.to_nat col := l]> (tableau s);
                    stock := stock s;
                    waste := waste s ++ [c] |})).
Proof.
  unfold move_card, py_index. split; [|split].
  - intros Hout.
    destruct (Z.leb_spec 0 col); [destruct (Z.ltb_spec col (Z.of_nat (length (tableau s))))|
                                  destruct (Z.leb_spec (- Z.of_nat (length (tableau s))) col)];
      first [reflexivity | lia].
  - intros Hneg.
    destruct (Z.leb_spec 0 col); [lia|].
    destruct (Z.leb_spec (- Z.of_nat (length (tableau s))) col); [|lia].
    destruct (Z.leb_spec 0 (col + Z.of_nat (length (tableau s)))); [|lia].
    destruct (Z.ltb_spec (col + Z.of_nat (length (tableau s)))
                         (Z.of_nat (length (tableau s)))); [|lia].
    replace (Z.of_nat (length (tableau s)) + col)
      with (col + Z.of_nat (length (tableau s))) by lia.
    reflexivity.
  - intros column Hcol Hlook.
    pose proof (lookup_lt_Some _ _ _ Hlook) as Hlt.
    destruct (Z.leb_spec 0 col); [|lia].
    destruct (Z.ltb_spec col (Z.of_nat (length (tableau s)))); [|lia].
    rewrite Hlook. split.
    + intros ->. reflexivity.
    + intros l c ->. rewrite last_snoc, removelast_last. reflexivity.
Qed.

(** X15.  Dealing from the stock [n] times in a row takes the last [n]
    cards of the stock, or all of them when there are fewer, and puts them
    on the waste pile in the order dealt, the last card of the stock first;
    tableau and deck stay as they are.  After as many deals as the stock
    has cards the stock is empty and further deals change nothing. *)
Theorem deal_from_stock_repeated (s : Game) (n : nat) :
  Nat.iter n deal_from_stock s =
    {| deck := deck s;
       tableau := tableau s;
       stock := take (length (stock s) - n) (stock s);
       waste := waste s ++ reverse (drop (length (stock s) - n) (stock s)) |} /\
  ((length (stock s) <= n)%nat ->
   stock (Nat.iter n deal_from_stock s) = [] /\
   waste (Nat.iter n deal_from_stock s) = waste s ++ reverse (stock s) /\
   deal_from_stock (Nat.iter n deal_from_stock s) = Nat.iter n deal_from_stock s).
Proof.
  assert (Nat.iter n deal_from_stock s =
    {| deck := deck s;
       tableau := tableau s;
       stock := take (length (stock s) - n) (stock s);
       waste := waste s ++ reverse (drop (length (stock s) - n) (stock s)) |})
    as Hiter.
  { induction n as [|n IH].
    - simpl. rewrite Nat.sub_0_r, firstn_all, drop_all, app_nil_r.
      destruct s; reflexivity.
    - simpl. rewrite IH. unfold deal_from_stock. simpl.
      destruct (le_lt_dec (length (stock s)) n) as [Hle|Hlt].
      + replace (length (stock s) - n)%nat with 0%nat by lia.
        replace (length (stock s) - S n)%nat with 0%nat by lia.
        reflexivity.
      + replace (length (stock s) - n)%nat with (S (length (stock s) - S n)) by lia.
        destruct (lookup_lt_is_Some_2 (stock s) (length (stock s) - S n))
          as [x Hx]; [lia|].
        rewrite (take_S_r _ _ _ Hx), last_snoc, removelast_last.
        rewrite (drop_S _ _ _ Hx), reverse_cons, app_assoc. reflexivity. }
  split; [exact Hiter|].
  intros Hle. rewrite Hiter. unfold deal_from_stock. simpl.
  replace (length (stock s) - n)%nat with 0%nat by lia.
  simpl. auto.
Qed.

(** ** The deal *)

Lemma deal_tableau_shape (cols per_column : nat) :
  forall (deck0 : list Card) (t : list (list Card)) (deck1 : list Card),
    deal_tableau cols per_column deck0 = Return (t, deck1) ->
    length t = cols /\ Forall (fun column => length column = per_column) t.
Proof.
  induction cols as [|cols IH]; intros deck0 t deck1 Hdeal; simpl in Hdeal.
  - injection Hdeal as <- <-. split; [reflexivity | constructor].
  - apply bind_Return in Hdeal as ([column deck'] & Hcol & Hdeal).
    apply bind_Return in Hdeal as ([rest deck''] & Hrec & Hret).
    injection Hret as <- <-.
    apply deal_pile_Return in Hcol as [_ Hcol].
    apply IH in Hrec as [Hlen Hall]. simpl.
    split; [lia | constructor; assumption].
Qed.

(** X16.  From a deck with enough cards [__init__] returns a game with
    [cols] columns of [per_column] cards each, one card on the waste pile
    and [51 - cols * per_column] cards in the stock, dealt off the deck in
    this order: the columns one after the other, the waste card, the stock.
    With 7 columns of 5 cards and 52 cards the stock has 16 cards and the
    deck is used up. *)
Theorem setup_deals_in_order (cols per_column : nat) (shuffled : list Card) :
  ((cols * per_column + 1 + (51 - cols * per_column) <= length shuffled)%nat ->
   exists s : Game,
     setup cols per_column shuffled = Return s /\
     length (tableau s) = cols /\
     Forall (fun column => length column = per_column) (tableau s) /\
     length (waste s) = 1%nat /\
     length (stock s) = (51 - cols * per_column)%nat /\
     shuffled = concat (tableau s) ++ waste s ++ stock s ++ deck s) /\
  (length shuffled = 52%nat ->
   exists s : Game,
     setup 7 5 shuffled = Return s /\
     length (tableau s) = 7%nat /\
     Forall (fun column => length column = 5%nat) (tableau s) /\
     length (waste s) = 1%nat /\
     length (stock s) = 16%nat /\
     deck s = []).
Proof.
  assert (forall c p (d : list Card),
            (c * p + 1 + (51 - c * p) <= length d)%nat ->
            exists s : Game,
              setup c p d = Return s /\
              length (tableau s) = c /\
              Forall (fun column => length column = p) (tableau s) /\
              length (waste s) = 1%nat /\
              length (stock s) = (51 - c * p)%nat /\
              d = concat (tableau s) ++ waste s ++ stock s ++ deck s) as Hgen.
  { intros c p d Hlen. destruct (setup_enough c p d Hlen) as [s Hs].
    exists s. split; [exact Hs|].
    pose proof (setup_Return _ _ _ _ Hs) as (Hcards & _ & Hw & Hst).
    unfold setup in Hs.
    apply bind_Return in Hs as ([t deck1] & Ht & Hs).
    apply bind_Return in Hs as ([top deck2] & _ & Hs).
    apply bind_Return in Hs as ([st deck3] & _ & Hret).
    apply deal_tableau_shape in Ht as [Hlen_t Hall].
    injection Hret as <-. simpl in *.
    repeat split; auto.
    rewrite Hcards. unfold all_cards. simpl. rewrite <- !app_assoc. reflexivity. }
  split; [apply Hgen|].
  intros Hlen. destruct (Hgen 7%nat 5%nat shuffled) as (s & Hs & Ht & Hall & Hw & Hst & Hcards).
  { rewrite Hlen. simpl. lia. }
  exists s. repeat split; auto.
  apply (f_equal length) in Hcards. rewrite !length_app in Hcards.
  assert (length (concat (tableau s)) = 35%nat) as Hconcat.
  { apply setup_Return in Hs as (_ & Hc & _). exact Hc. }
  apply length_zero_iff_nil. simpl in Hst. lia.
Qed.

(** ** The game loop *)

Lemma legal_step_after (s s' : Game) :
  legal_step s s' -> exists c : Call, s' = after s c.
Proof.
  intros [->|(i & column & c & _ & _ & _ & Hmove)].
  - exists call_deal_from_stock. reflexivity.
  - exists (call_move_card (Z.of_nat i)). simpl. rewrite Hmove. reflexivity.
Qed.

Lemma after_tableau_length (s : Game) (c : Call) :
  length (tableau (after s c)) = length (tableau s).
Proof.
  destruct c as [card|col| | |]; simpl; try reflexivity.
  - destruct (move_card s col) as [e|s'] eqn:Hmove; [reflexivity|].
    apply move_card_Return in Hmove as (t1 & t2 & l & c & -> & ->). simpl.
    rewrite !length_app. reflexivity.
  - unfold deal_from_stock. destruct (last (stock s)); reflexivity.
Qed.

Lemma after_waste_nonempty (s : Game) (c : Call) :
  waste s <> [] -> waste (after s c) <> [].
Proof.
  intros Hw. destruct (after_waste s c) as [-> | [x ->]]; [exact Hw|].
  intros Hnil. apply app_eq_nil in Hnil as [_ Hnil]. discriminate.
Qed.

(** A game [__init__] has built has [columns] columns and a card on the
    waste pile, whatever has been called on it. *)
Lemma reachable_shape (shuffled : list Card) (s : Game) :
  reachable shuffled s -> length (tableau s) = columns /\ waste s <> [].
Proof.
  induction 1 as [s Hs|s c Hs [IHt IHw]].
  - unfold Solitaire_init, setup in Hs.
    apply bind_Return in Hs as ([t deck1] & Ht & Hs).
    apply bind_Return in Hs as ([top deck2] & _ & Hs).
    apply bind_Return in Hs as ([st deck3] & _ & Hret).
    apply deal_tableau_shape in Ht as [Hlen _].
    injection Hret as <-. simpl. split; [exact Hlen | discriminate].
  - rewrite after_tableau_length. split; [exact IHt|].
    apply after_waste_nonempty. exact IHw.
Qed.

(** A command that returns leaves the game as it is or makes one legal
    step. *)
Lemma play_command_inr (s s1 : Game) (command : Command) (printed : list Printed) :
  play_command s command = inr (s1, printed) -> s1 = s \/ legal_step s s1.
Proof.
  destruct command as [| | |n|]; simpl; intros Hstep.
  - injection Hstep as <- <-. auto.
  - injection Hstep as <- <-. auto.
  - injection Hstep as <- <-. right. left. reflexivity.
  - destruct ((0 <=? n) && (n <? Z.of_nat columns)) eqn:Hrange;
      [|injection Hstep as <- <-; auto].
    apply andb_true_iff in Hrange as [Hlo _]. apply Z.leb_le in Hlo.
    destruct (tableau s !! Z.to_nat n) as [column|] eqn:Hcol; [|discriminate].
    destruct (last column) as [c|] eqn:Hlast; [|injection Hstep as <- <-; auto].
    destruct (can_move s c) as [e|[|]] eqn:Hcan;
      [discriminate | | injection Hstep as <- <-; auto].
    destruct (move_card s n) as [e|s'] eqn:Hmove; [discriminate|].
    injection Hstep as <- <-. right. right.
    exists (Z.to_nat n), column, c. rewrite Z2Nat.id by exact Hlo. auto.
  - discriminate.
Qed.

(** With a card on the waste pile [has_lost] returns. *)
Lemma has_lost_Return (s : Game) :
  waste s <> [] -> exists v, has_lost s = Return v.
Proof.
  intros Hw. apply last_is_Some in Hw as [top Htop].
  unfold has_lost. destruct (stock s); [|eauto].
  apply has_lost_from_Return. intros card.
  exact (proj2 (can_move_from_spec (tableau s) _ card top Htop)).
Qed.

(** On a game with [columns] columns and a card on the waste pile a
    command raises only the [ValueError] of [int]. *)
Lemma play_command_inl (s : Game) (command : Command) (e : play_exn) :
  length (tableau s) = columns -> waste s <> [] ->
  play_command s command = inl e -> e = ValueError /\ command = cmd_other.
Proof.
  intros Ht Hw. destruct command as [| | |n|]; simpl; intros Hstep;
    try discriminate; [|injection Hstep as <-; auto].
  destruct ((0 <=? n) && (n <? Z.of_nat columns)) eqn:Hrange; [|discriminate].
  apply andb_true_iff in Hrange as [Hlo Hhi].
  apply Z.leb_le in Hlo. apply Z.ltb_lt in Hhi.
  destruct (lookup_lt_is_Some_2 (tableau s) (Z.to_nat n)) as [column Hcol];
    [rewrite Ht; lia|].
  rewrite Hcol in Hstep.
  destruct (last column) as [c|] eqn:Hlast; [|discriminate].
  apply last_is_Some in Hw as [top Htop].
  destruct (proj2 (can_move_from_spec (tableau s) _ c top Htop)) as [Hcan|Hcan];
    fold (can_move s c) in Hcan; rewrite Hcan in Hstep; [|discriminate].
  apply last_Some in Hlast as [l ->].
  destruct (move_card_by_index s n) as (_ & _ & Hin).
  destruct (Hin _ Hlo Hcol) as [_ Hmove].
  rewrite (Hmove l c eq_refl) in Hstep. discriminate.
Qed.

Lemma has_lost_from_true (s : Game) (cols : list (list Card)) :
  has_lost_from s cols = Return (PyBool true) ->
  forall column c, column ∈ cols -> last column = Some c ->
                   can_move s c = Return false.
Proof.
  induction cols as [|element cols IH]; simpl; intros Hlost column c Hin Hlast.
  - inversion Hin.
  - destruct (last element) as [c'|] eqn:Hlast'.
    + destruct (can_move s c') as [e|[|]] eqn:Hcan; simpl in Hlost;
        try discriminate.
      apply elem_of_cons in Hin as [->|Hin]; [|eauto].
      rewrite Hlast in Hlast'. injection Hlast' as ->. exact Hcan.
    + apply elem_of_cons in Hin as [->|Hin]; [congruence | eauto].
Qed.

(** The ways [play] returns after a first command. *)
Lemma play_cons_return (command : Command) (commands : list Command)
    (s s' : Game) (message : string) (out : list Printed) :
  play (command :: commands) s = play_return message s' out ->
  (command = cmd_q /\ message = "You quit!"%string /\ s' = s) \/
  (exists (s1 : Game) (printed : list Printed),
     play_command s command = inr (s1, printed) /\
     ((has_won s1 = true /\ message = "You have won!"%string /\ s' = s1) \/
      (has_won s1 = false /\ has_lost s1 = Return (PyBool true) /\
       message = "You have lost!"%string /\ s' = s1) \/
      (has_won s1 = false /\
       exists out', play commands s1 = play_return message s' out'))).
Proof.
  intros Hplay.
  destruct command as [| | |n|];
    [left; cbn [play] in Hplay; injection Hplay as <- <- <-; auto 10 | | | |];
    right; cbn [play] in Hplay;
    (destruct (play_command s _) as [e|[s1 printed]] eqn:Hstep; [discriminate|]);
    exists s1, printed; (split; [reflexivity|]);
    (destruct (has_won s1) eqn:Hwon;
     [injection Hplay as <- <- <-; auto 10|]);
    (destruct (has_lost s1) as [e|v] eqn:Hlost; [discriminate|]);
    (destruct v as [|[|]]; simpl in Hplay;
     [ | injection Hplay as <- <- <-; auto 10 | ]);
    (destruct (play commands s1) as [e|m s2 o] eqn:Hrec; [discriminate|]);
    injection Hplay as <- <- <-; eauto 10.
Qed.

(** The ways [play] raises after a first command. *)
Lemma play_cons_raise (command : Command) (commands : list Command)
    (s : Game) (e : play_exn) :
  play (command :: commands) s = play_raise e ->
  command <> cmd_q /\
  (play_command s command = inl e \/
   exists (s1 : Game) (printed : list Printed),
     play_command s command = inr (s1, printed) /\
     ((exists e', has_lost s1 = Raise e' /\ e = Raised e') \/
      play commands s1 = play_raise e)).
Proof.
  intros Hplay.
  destruct command as [| | |n|]; [discriminate | | | |];
    (split; [discriminate|]); cbn [play] in Hplay;
    (destruct (play_command s _) as [e0|[s1 printed]] eqn:Hstep;
     [injection Hplay as <-; auto|]);
    right; exists s1, printed; (split; [reflexivity|]);
    (destruct (has_won s1); [discriminate|]);
    (destruct (has_lost s1) as [e'|v] eqn:Hlost;
     [injection Hplay as <-; eauto|]);
    (destruct (truth v); [discriminate|]);
    (destruct (play commands s1) as [e1|m s2 o] eqn:Hrec; [|discriminate]);
    injection Hplay as <-; auto.
Qed.

(** X17.  When [play] returns, the game it leaves has come from the game
    it started on by legal steps alone, each a card dealt from the stock or
    the last card of a column that [can_move] accepts; it holds the same
    cards, and the deck is untouched. *)
Theorem play_makes_only_legal_steps (commands : list Command) :
  forall (s s' : Game) (message : string) (out : list Printed),
    play commands s = play_return message s' out ->
    rtc legal_step s s' /\ all_cards s' ≡ₚ all_cards s /\ deck s' = deck s.
Proof.
  assert (forall s s1 : Game, s1 = s \/ legal_step s s1 ->
            rtc legal_step s s1 /\ all_cards s1 ≡ₚ all_cards s /\ deck s1 = deck s)
    as Hone.
  { intros s s1 [->|Hstep]; [repeat split; reflexivity|].
    split; [apply rtc_once; exact Hstep|].
    destruct (legal_step_after _ _ Hstep) as [c ->]. apply after_all_cards. }
  induction commands as [|command commands IH]; intros s s' message out Hplay;
    [discriminate|].
  apply play_cons_return in Hplay
    as [(_ & _ & ->)|(s1 & printed & Hstep & Hcases)];
    [repeat split; reflexivity|].
  apply play_command_inr in Hstep.
  destruct (Hone _ _ Hstep) as (Hrtc & Hperm & Hdeck).
  destruct Hcases as [(_ & _ & ->)|[(_ & _ & _ & ->)|(_ & out' & Hrec)]]; auto.
  destruct (IH _ _ _ _ Hrec) as (Hrtc' & Hperm' & Hdeck').
  split; [etrans; eassumption|]. split; [etrans; eassumption | congruence].
Qed.

(** X18.  The message [play] returns is true of the game it leaves: "You
    have won!" only with an empty tableau, "You have lost!" only with cards
    in the tableau, an empty stock and no column whose last card
    [can_move] accepts, and "You quit!" only on the command ["q"]. *)
Theorem play_message_is_sound (commands : list Command) :
  forall (s s' : Game) (message : string) (out : list Printed),
    play commands s = play_return message s' out ->
    (message = "You quit!"%string /\ cmd_q ∈ commands) \/
    (message = "You have won!"%string /\ has_won s' = true) \/
    (message = "You have lost!"%string /\ has_won s' = false /\
     stock s' = [] /\
     forall card, exposed s' card -> can_move s' card = Return false).
Proof.
  induction commands as [|command commands IH]; intros s s' message out Hplay;
    [discriminate|].
  apply play_cons_return in Hplay
    as [(-> & -> & _)|(s1 & printed & _ & Hcases)].
  { left. split; [reflexivity | left]. }
  destruct Hcases as [(Hwon & -> & ->)|[(Hwon & Hlost & -> & ->)|(_ & out' & Hrec)]].
  - right. left. auto.
  - right. right. split; [reflexivity|]. split; [exact Hwon|].
    unfold has_lost in Hlost. destruct (stock s1); [|discriminate].
    split; [reflexivity|]. intros card (column & Hin & Hlast).
    exact (has_lost_from_true _ _ Hlost column card Hin Hlast).
  - destruct (IH _ _ _ _ Hrec) as [[-> Hq]|Hrest]; [|auto].
    left. split; [reflexivity | right; exact Hq].
Qed.

(** X19.  On a game that [__init__] has built, [play] raises nothing of
    its own: no [IndexError] from a column or from the waste pile.  It
    raises only the [ValueError] of [int] on a line that is no command, and
    the [EOFError] of [input] when the lines end before a ["q"]. *)
Theorem play_raises_only_on_input (shuffled : list Card) (commands : list Command) :
  forall (s : Game) (e : play_exn),
    reachable shuffled s ->
    play commands s = play_raise e ->
    (e = ValueError /\ cmd_other ∈ commands) \/
    (e = Raised EOFError /\ cmd_q ∉ commands).
Proof.
  induction commands as [|command commands IH]; intros s e Hs Hplay.
  - injection Hplay as <-. right. split; [reflexivity|]. intros Hin. inversion Hin.
  - destruct (reachable_shape _ _ Hs) as [Ht Hw].
    apply play_cons_raise in Hplay as (Hq & [Hstep|(s1 & printed & Hstep & Hcases)]).
    + apply (play_command_inl s command e Ht Hw) in Hstep as [-> ->].
      left. split; [reflexivity | left].
    + assert (reachable shuffled s1) as Hs1.
      { apply play_command_inr in Hstep as [->|Hstep]; [exact Hs|].
        destruct (legal_step_after _ _ Hstep) as [c ->].
        apply reachable_call. exact Hs. }
      destruct Hcases as [(e' & Hlost & ->)|Hrec].
      * exfalso.
        destruct (has_lost_Return s1 (proj2 (reachable_shape _ _ Hs1))) as [v Hv].
        rewrite Hv in Hlost. discriminate.
      * destruct (IH _ _ Hs1 Hrec) as [[-> Hin]|[-> Hnq]].
        -- left. split; [reflexivity | right; exact Hin].
        -- right. split; [reflexivity|]. intros Hin.
           apply elem_of_cons in Hin as [Heq|Hin]; [congruence | contradiction].
Qed.

End GameProperties.

(** * The Blackjack view *)

Section ViewProperties.

Import Blackjack.
Import Stdlib.Strings.Ascii.







End ViewProperties.

(** * The further theorems at concrete hands and rounds *)

Section BlackjackExamples.

Import Blackjack.

Ltac valid_cards :=
  repeat (constructor; [eexists; vm_compute; reflexivity|]); constructor.

Ltac evaluate :=
  vm_compute; first [reflexivity | lia | intuition (discriminate || lia)].

(** Ace, ace and nine make 21 with one ace at 1. *)
Lemma hand_score_closed_form_witness :
  exists h : Hand,
    add_cards ace_ace_nine Hand_init = Return h /\
    cards h = ace_ace_nine /\
    score h = face_total ace_ace_nine
              - 10 * downgrades (face_total ace_ace_nine) (ace_total ace_ace_nine) /\
    aces h = ace_total ace_ace_nine
             - downgrades (face_total ace_ace_nine) (ace_total ace_ace_nine).
Proof. apply (hand_score_closed_form ace_ace_nine). valid_cards. Defined.

(** The same three cards with the nine first. *)
Lemma hand_score_order_independent_witness :
  exists h' : Hand,
    add_cards nine_ace_ace Hand_init = Return h' /\
    score h' = score (hand_of ace_ace_nine) /\
    aces h' = aces (hand_of ace_ace_nine).
Proof.
  apply (hand_score_order_independent ace_ace_nine nine_ace_ace
           (hand_of ace_ace_nine)).
  - unfold ace_ace_nine, nine_ace_ace. solve_Permutation.
  - vm_compute. reflexivity.
Defined.

(** Ace, ace and nine are no bust: with both aces at 1 they make 11. *)
Lemma hand_bust_iff_hard_total_witness :
  21 < score (hand_of ace_ace_nine) <->
  21 < face_total ace_ace_nine - 10 * ace_total ace_ace_nine.
Proof.
  apply (hand_bust_iff_hard_total ace_ace_nine (hand_of ace_ace_nine)).
  vm_compute. reflexivity.
Defined.

Lemma round_outcome_by_final_scores_witness :
  outcome round_dealer_22
  = verdict (score (player (state round_dealer_22)))
            (score (dealer (state round_dealer_22))) /\
  outcome round_dealer_22 = Some PLAYER_LOST.
Proof.
  split; [|vm_compute; reflexivity].
  apply (round_outcome_by_final_scores deck_dealer_22 ["S"%string]).
  vm_compute. reflexivity.
Defined.

Lemma round_without_verdict_iff_tie_witness :
  (outcome round_tie = None <->
     score (dealer (state round_tie)) = score (player (state round_tie)) /\
     score (player (state round_tie)) < 21) /\
  outcome round_tie = None.
Proof.
  split; [|vm_compute; reflexivity].
  apply (round_without_verdict_iff_tie deck_tie ["S"%string]).
  vm_compute. reflexivity.
Defined.

(** One hit and then a stand on [deck_hit_stand], after the first four
    cards. *)
Lemma player_turn_answers_and_cards_witness :
  exists (hits : list Card) (last_answer : list string),
    ["H"; "S"; "H"]%string
      = replicate (length hits) "H"%string ++ last_answer ++ ["H"%string] /\
    [card "4"; card "2"; card "7"] = hits ++ [card "2"; card "7"] /\
    add_cards hits (hand_of [card "5"; card "6"])
      = Return (hand_of [card "5"; card "6"; card "4"]) /\
    length [ask_next_move {| dealer := hand_of [card "10"; card "8"];
                             player := hand_of [card "5"; card "6"] |};
            ask_next_move {| dealer := hand_of [card "10"; card "8"];
                             player := hand_of [card "5"; card "6"; card "4"] |}]
      = (length hits + length last_answer)%nat /\
    Forall (fun c => exists p',
              c = ask_next_move {| dealer := hand_of [card "10"; card "8"];
                                   player := p' |} /\
              score p' < 21)
           [ask_next_move {| dealer := hand_of [card "10"; card "8"];
                             player := hand_of [card "5"; card "6"] |};
            ask_next_move {| dealer := hand_of [card "10"; card "8"];
                             player := hand_of [card "5"; card "6"; card "4"] |}] /\
    ((last_answer = [] /\ 21 <= score (hand_of [card "5"; card "6"; card "4"])) \/
     (exists a, last_answer = [a] /\ a <> "H"%string /\
                score (hand_of [card "5"; card "6"; card "4"]) < 21)).
Proof.
  apply (player_turn_answers_and_cards ["H"; "S"; "H"]%string
           [card "4"; card "2"; card "7"]
           (hand_of [card "5"; card "6"]) (hand_of [card "10"; card "8"])).
  vm_compute. reflexivity.
Defined.

Lemma round_cards_accounted_witness :
  exists (c1 c2 c3 c4 : Card) (hits draws : list Card),
    deck_dealer_22
      = c1 :: c2 :: c3 :: c4 :: hits ++ draws ++ deck_left round_dealer_22 /\
    add_cards (c1 :: c3 :: hits) Hand_init = Return (player (state round_dealer_22)) /\
    add_cards (c2 :: c4 :: draws) Hand_init = Return (dealer (state round_dealer_22)).
Proof.
  apply (round_cards_accounted deck_dealer_22 ["S"%string]).
  vm_compute. reflexivity.
Defined.

Lemma round_view_calls_witness :
  exists (used : list string) (asks final : list ViewCall),
    ["S"%string] = used ++ inputs_left round_dealer_22 /\
    view_calls round_dealer_22 = asks ++ final /\
    Forall (fun c => is_ask c = true) asks /\
    length asks = length used /\
    decisions round_dealer_22 = length used /\
    (final = [] \/ final = [player_won (state round_dealer_22)] \/
     final = [player_lost (state round_dealer_22)]).
Proof.
  apply (round_view_calls deck_dealer_22 ["S"%string]).
  vm_compute. reflexivity.
Defined.

(** Three cards are not enough for the first deal. *)
Lemma round_needs_four_cards_witness :
  (exists e, BlackjackController [card "10"; card "5"; card "9"] [] = Raise e) /\
  (Forall valid_card [card "10"; card "5"; card "9"] ->
   BlackjackController [card "10"; card "5"; card "9"] [] = Raise IndexError).
Proof.
  apply (round_needs_four_cards [card "10"; card "5"; card "9"] []).
  simpl. lia.
Defined.

(** The one decision of the round on [deck_dealer_22]: the dealer's five is
    shown, the seven is not. *)
Lemma hole_card_hidden_at_every_ask_witness :
  exists (c1 c2 c3 c4 : Card) (rest : Deck),
    deck_dealer_22 = c1 :: c2 :: c3 :: c4 :: rest /\
    cards (dealer {| dealer := hand_of [card "5"; card "7"];
                     player := hand_of [card "10"; card "9"] |}) = [c2; c4] /\
    dealer_score_shown
      (display_state {| dealer := hand_of [card "5"; card "7"];
                        player := hand_of [card "10"; card "9"] |} false)
      = inr "??"%string /\
    dealer_cards_shown
      (display_state {| dealer := hand_of [card "5"; card "7"];
                        player := hand_of [card "10"; card "9"] |} false)
      = inr ("[" +:+ code c2 +:+ ",??]").
Proof.
  apply (hole_card_hidden_at_every_ask deck_dealer_22 ["S"%string] round_dealer_22).
  - vm_compute. reflexivity.
  - vm_compute. left.
Defined.

End BlackjackExamples.

(** * The further theorems at concrete games *)

Section GameExamples.

Import Solitaire.

Lemma has_lost_with_empty_stock_witness :
  exists b : bool,
    has_lost stuck_game = Return (PyBool b) /\
    (b = true <->
     forall card, exposed stuck_game card ->
                  Z.abs (rank (12, Hearts) - rank card) <> 1).
Proof.
  apply (has_lost_with_empty_stock stuck_game (12, Hearts)); reflexivity.
Defined.

Lemma won_game_with_empty_stock_has_lost_witness :
  has_lost cleared_game = Return (PyBool true).
Proof.
  apply (won_game_with_empty_stock_has_lost cleared_game); reflexivity.
Defined.

Lemma can_move_on_empty_waste_witness :
  (exposed no_waste_game (2, Clubs) ->
   can_move no_waste_game (2, Clubs) = Raise IndexError) /\
  (~ exposed no_waste_game (2, Clubs) ->
   can_move no_waste_game (2, Clubs) = Return false).
Proof.
  apply (can_move_on_empty_waste no_waste_game (2, Clubs)). reflexivity.
Defined.

Lemma play_makes_only_legal_steps_witness :
  exists (s' : Solitaire) (out : list Printed),
    play winning_commands (start_of full_deck)
      = play_return "You have won!" s' out /\
    rtc legal_step (start_of full_deck) s' /\
    all_cards s' ≡ₚ all_cards (start_of full_deck) /\
    deck s' = deck (start_of full_deck).
Proof.
  do 2 eexists. split; [vm_compute; reflexivity|].
  eapply (play_makes_only_legal_steps winning_commands).
  vm_compute. reflexivity.
Defined.

Lemma play_message_is_sound_witness :
  exists (s' : Solitaire) (out : list Printed),
    play winning_commands (start_of full_deck)
      = play_return "You have won!" s' out /\
    has_won s' = true.
Proof.
  do 2 eexists. split; [vm_compute; reflexivity|].
  destruct (play_message_is_sound (H:=PlainCard_CardLike)
              winning_commands (start_of full_deck) _
              "You have won!" _ ltac:(vm_compute; reflexivity))
    as [[Hq _]|[[_ Hwon]|[Hl _]]];
    [discriminate Hq | exact Hwon | discriminate Hl].
Defined.

Lemma play_raises_only_on_input_witness :
  (ValueError = ValueError /\ cmd_other ∈ [cmd_int 3; cmd_other]) \/
  (ValueError = Raised EOFError /\ cmd_q ∉ [cmd_int 3; cmd_other]).
Proof.
  apply (play_raises_only_on_input full_deck [cmd_int 3; cmd_other]
           (start_of full_deck) ValueError).
  - apply reachable_init. vm_compute. reflexivity.
  - vm_compute. reflexivity.
Defined.

End GameExamples.
